(** * Conway's Game of Life on a sparse int64 grid (main.go)

    A shallow embedding of [main.go]: the [Cell] and [Cells] types, the
    neighbour enumeration, the generation loop of [runGameOfLife], and the
    Life 1.06 reader and writer ([parseCells], [printCells]).

    Conventions.
    - An [int64] is a [Z]; the Go additions and subtractions are written
      with their two's-complement wrap-around ([add64], [sub64]).
    - [Cells] is Go's [map[Cell]struct{}]: a finite set of keys, [gset Cell].
    - A Go [range] over a map visits every key once, in an order the
      language leaves unspecified.  Every such loop takes the order it uses
      as an argument (a [MapOrder]); the theorems quantify over all of them.
    - A channel fed by one goroutine and drained by one [range] loop is the
      list of the values sent, in the order they are sent. *)

From Stdlib Require Import ZArith Lia String Ascii List DecimalString DecimalZ DecimalN DecimalPos.
From stdpp Require Import base gmap sets list strings.

Open Scope Z_scope.

(** ** Machine integers *)

Definition MinInt64 : Z := -9223372036854775808.
Definition MaxInt64 : Z := 9223372036854775807.

Definition int64 (z : Z) : Prop := MinInt64 <= z <= MaxInt64.

Definition wrap64 (z : Z) : Z := (z + 2 ^ 63) mod 2 ^ 64 - 2 ^ 63.
Definition add64 (a b : Z) : Z := wrap64 (a + b).
Definition sub64 (a b : Z) : Z := wrap64 (a - b).

(** [uint8] arithmetic, used by the neighbour counter. *)
Definition wrap8 (z : Z) : Z := z mod 256.

(** ** Cells *)

Record Cell : Set := mkCell { x : Z; y : Z }.

Global Instance Cell_eq_dec : EqDecision Cell.
Proof. solve_decision. Defined.

Global Instance Cell_countable : Countable Cell.
Proof.
  refine (inj_countable' (λ c, (x c, y c)) (λ p, mkCell p.1 p.2) _).
  by intros [].
Defined.

(** The values a [Cell] can hold in the program: both fields are int64. *)
Definition Cell_ok (c : Cell) : Prop := int64 (x c) ∧ int64 (y c).

(** [func (cell Cell) neighbors() <-chan Cell]: the values sent on the
    channel before it is closed. *)
Definition neighbors (cell : Cell) : list Cell :=
  let yieldForX (x0 : Z) : list Cell :=
    (if MinInt64 <? y cell then [mkCell x0 (sub64 (y cell) 1)] else []) ++
    (if negb (x cell =? x0) then [mkCell x0 (y cell)] else []) ++
    (if y cell <? MaxInt64 then [mkCell x0 (add64 (y cell) 1)] else []) in
  (if MinInt64 <? x cell then yieldForX (sub64 (x cell) 1) else []) ++
  yieldForX (x cell) ++
  (if x cell <? MaxInt64 then yieldForX (add64 (x cell) 1) else []).

(** ** Cell sets *)

Abbreviation Cells := (gset Cell).

Definition addCell (cells : Cells) (cell : Cell) : Cells := {[cell]} ∪ cells.
Definition hasCell (cells : Cells) (cell : Cell) : bool := bool_decide (cell ∈ cells).
Definition removeCell (cells : Cells) (cell : Cell) : Cells := cells ∖ {[cell]}.

(** The order in which one [range] loop visits the keys of a map. *)
Definition MapOrder : Type := Cells → list Cell.

(** What Go guarantees of a [range] over a map that the loop body does not
    modify: every key is visited exactly once. *)
Definition range_order (o : MapOrder) : Prop := ∀ m, o m ≡ₚ elements m.

(** [func (cells Cells) numAliveNeighbors(cell Cell) uint8] *)
Definition numAliveNeighbors (cells : Cells) (cell : Cell) : Z :=
  foldl (λ aliveCount neighbor,
           if hasCell cells neighbor then wrap8 (aliveCount + 1) else aliveCount)
        0 (neighbors cell).

(** [func (cells Cells) deadNeighbors() <-chan Cell]: [scan] is the order of
    the loop over [cells], [emit] the order of the loop that sends the
    collected map on the channel. *)
Definition deadNeighbors (scan emit : MapOrder) (cells : Cells) : list Cell :=
  let deadNeighborCells :=
    foldl (λ dead cell,
             foldl (λ dead neighbor,
                      if negb (hasCell cells neighbor) then addCell dead neighbor else dead)
                   dead (neighbors cell))
          ∅ (scan cells) in
  emit deadNeighborCells.

(** ** The generation loop *)

(** Lines written to [os.Stderr] by the loop. *)
Inductive Event : Set :=
| EvIteration (iteration : Z)
| EvDying (cell : Cell)
| EvBorn (cell : Cell).

(** The orders of the five map loops of one iteration. *)
Record StepOrder : Type := mkStepOrder {
  ord_cells : MapOrder;        (* for cell := range cells (death pass) *)
  ord_deadScan : MapOrder;     (* for cell := range cells (deadNeighbors) *)
  ord_deadEmit : MapOrder;     (* for deadNeighbor := range deadNeighborCells *)
  ord_dying : MapOrder;        (* for cell := range dyingCells *)
  ord_birthed : MapOrder       (* for cell := range birthedCells *)
}.

Definition step_order (o : StepOrder) : Prop :=
  range_order (ord_cells o) ∧ range_order (ord_deadScan o) ∧
  range_order (ord_deadEmit o) ∧ range_order (ord_dying o) ∧
  range_order (ord_birthed o).

Definition dyingCells_of (o : StepOrder) (cells : Cells) : Cells :=
  foldl (λ dyingCells cell,
           let aliveNeighbors := numAliveNeighbors cells cell in
           if (aliveNeighbors <? 2) || (3 <? aliveNeighbors)
           then addCell dyingCells cell else dyingCells)
        ∅ (ord_cells o cells).

Definition birthedCells_of (o : StepOrder) (cells : Cells) : Cells :=
  foldl (λ birthedCells cell,
           let aliveNeighbors := numAliveNeighbors cells cell in
           if aliveNeighbors =? 3 then addCell birthedCells cell else birthedCells)
        ∅ (deadNeighbors (ord_deadScan o) (ord_deadEmit o) cells).

(** The body of the [for iteration] loop of [runGameOfLife]; the state is
    the [cells] map, updated in place, and what has been written to
    [os.Stderr]. *)
Definition step (o : StepOrder) (iteration : Z) (st : Cells * list Event) : Cells * list Event :=
  let cells := st.1 in
  let dyingCells := dyingCells_of o cells in
  let birthedCells := birthedCells_of o cells in
  let st := (cells, st.2 ++ [EvIteration iteration]) in
  let st := foldl (λ st cell, (removeCell st.1 cell, st.2 ++ [EvDying cell]))
                  st (ord_dying o dyingCells) in
  foldl (λ st cell, (addCell st.1 cell, st.2 ++ [EvBorn cell]))
        st (ord_birthed o birthedCells).

(** [for iteration := 0; iteration < iterations; iteration++]: the loop
    counter runs through [0, 1, ..., iterations - 1], and through nothing when
    [iterations <= 0]; [sched i] gives the map orders of iteration [i]. *)
Definition simulate (sched : nat → StepOrder) (iterations : Z) (cells : Cells)
  : Cells * list Event :=
  foldl (λ st i, step (sched i) (Z.of_nat i) st) (cells, [])
        (seq 0 (Z.to_nat iterations)).

Definition schedule (sched : nat → StepOrder) : Prop := ∀ i, step_order (sched i).

(** The order [elements] of the set library, used to run the model. *)
Definition elements_order : MapOrder := elements.
Definition elements_step : StepOrder :=
  mkStepOrder elements_order elements_order elements_order elements_order elements_order.
Definition elements_sched : nat → StepOrder := λ _, elements_step.

(** Another order: that of [elements], backwards. *)
Definition reverse_order : MapOrder := λ m, reverse (elements m).
Definition reverse_step : StepOrder :=
  mkStepOrder reverse_order elements_order reverse_order elements_order reverse_order.
Definition reverse_sched : nat → StepOrder :=
  λ i, if Nat.even i then reverse_step else elements_step.


(** ** Text: the parts of [strings], [bufio], [strconv] and [fmt] that
    [parseCells] and [printCells] call

    A Go string is a sequence of bytes; a byte is an [ascii].  Runes are
    UTF-8 encoded; the only runes the program tells apart from the rest
    are the white-space runes, the sign and digit characters and [#]. *)

Definition FILE_HEADER : string := "#Life 1.06".

Definition code (b : ascii) : Z := Z.of_N (N_of_ascii b).

Definition newline : ascii := ascii_of_N 10.

(** One-byte white space: tab, newline, vertical tab, form feed, carriage
    return and space. *)
Definition asciiSpace (b : ascii) : bool :=
  ((9 <=? code b) && (code b <=? 13)) || (code b =? 32).

(** Two-byte white space: U+0085 and U+00A0. *)
Definition space2 (b1 b2 : ascii) : bool :=
  (code b1 =? 194) && ((code b2 =? 133) || (code b2 =? 160)).

(** Three-byte white space: U+1680, U+2000 to U+200A, U+2028, U+2029,
    U+202F, U+205F and U+3000. *)
Definition space3 (b1 b2 b3 : ascii) : bool :=
  ((code b1 =? 225) && (code b2 =? 154) && (code b3 =? 128)) ||
  ((code b1 =? 226) && (code b2 =? 128) &&
     (((128 <=? code b3) && (code b3 <=? 138)) ||
      (code b3 =? 168) || (code b3 =? 169) || (code b3 =? 175))) ||
  ((code b1 =? 226) && (code b2 =? 129) && (code b3 =? 159)) ||
  ((code b1 =? 227) && (code b2 =? 128) && (code b3 =? 128)).

(** Drop the runes at the head of [s] that the three tests accept. *)
Fixpoint skipRunes (sp1 : ascii → bool) (sp2 : ascii → ascii → bool)
    (sp3 : ascii → ascii → ascii → bool) (s : string) : string :=
  match s with
  | EmptyString => s
  | String b1 r1 =>
    if sp1 b1 then skipRunes sp1 sp2 sp3 r1
    else match r1 with
         | EmptyString => s
         | String b2 r2 =>
           if sp2 b1 b2 then skipRunes sp1 sp2 sp3 r2
           else match r2 with
                | EmptyString => s
                | String b3 r3 =>
                  if sp3 b1 b2 b3 then skipRunes sp1 sp2 sp3 r3 else s
                end
         end
  end.

(** [strings.TrimSpace]: the leading white space is matched from the
    left, the trailing white space from the right, rune by rune. *)
Definition TrimLeftSpace (s : string) : string := skipRunes asciiSpace space2 space3 s.

Definition TrimRightSpace (s : string) : string :=
  String.rev (skipRunes asciiSpace (λ b2 b1, space2 b1 b2) (λ b3 b2 b1, space3 b1 b2 b3)
                        (String.rev s)).

Definition TrimSpace (s : string) : string := TrimRightSpace (TrimLeftSpace s).

(** [strings.HasPrefix] *)
Definition HasPrefix (s prefix : string) : bool := String.prefix prefix s.

(** [dropCR] of [bufio]: one carriage return at the end is dropped. *)
Definition dropCR (line : string) : string :=
  match String.rev line with
  | String b r => if code b =? 13 then String.rev r else line
  | EmptyString => line
  end.

(** The lines of a file: the bytes between its newlines, and the bytes
    after the last newline when there are some. *)
Fixpoint splitLines (data : string) : list string :=
  match data with
  | EmptyString => []
  | String b rest =>
    if code b =? 10 then EmptyString :: splitLines rest
    else match splitLines rest with
         | line :: lines => String b line :: lines
         | [] => [String b EmptyString]
         end
  end.

(** [bufio.MaxScanTokenSize], the size of the buffer of a [bufio.Scanner]. *)
Definition MaxScanTokenSize : Z := 65536.

(** A line that the buffer cannot hold together with what ends it. *)
Definition tooLong (line : string) : bool :=
  MaxScanTokenSize <=? Z.of_nat (String.length line).

(** The tokens that the calls of [scanner.Scan()] deliver with the split
    function [bufio.ScanLines]: the lines in order, each without its
    carriage return, up to the first line that is too long.  There [Scan]
    returns false with [ErrTooLong], as it does at the end of the file;
    [parseCells] never looks at [scanner.Err()]. *)
Fixpoint scanTokens (lines : list string) : list string :=
  match lines with
  | [] => []
  | line :: lines => if tooLong line then [] else dropCR line :: scanTokens lines
  end.

Definition scanLines (data : string) : list string := scanTokens (splitLines data).

(** [%d] of [fmt.Fprintf]: the decimal digits, after a minus sign for a
    negative number. *)
Definition fmt_d (z : Z) : string := NilZero.string_of_int (Z.to_int z).

(** *** [fmt.Fscanf] with the format ["%d %d"] *)

Inductive ScanError : Set :=
| ErrEOF                (* the input ends where a number has to start *)
| ErrUnexpectedNewline  (* "unexpected newline" *)
| ErrExpectedInteger    (* "expected integer" *)
| ErrExpectedSpace      (* "expected space in input to match format" *)
| ErrNewlineInInput     (* "newline in input does not match format" *)
| ErrSyntax             (* strconv.ErrSyntax *)
| ErrRange.             (* strconv.ErrRange *)

Definition digit_of (b : ascii) : option Z :=
  if (48 <=? code b) && (code b <=? 57) then Some (code b - 48) else None.

(** The loop of [strconv.ParseUint] in base 10 with 64 bits. *)
Fixpoint ParseUint_loop (s : string) (n : Z) : ScanError + Z :=
  match s with
  | EmptyString => inr n
  | String b r =>
    match digit_of b with
    | None => inl ErrSyntax
    | Some d => if 2 ^ 64 <=? n * 10 + d then inl ErrRange else ParseUint_loop r (n * 10 + d)
    end
  end.

Definition ParseUint (s : string) : ScanError + Z :=
  match s with
  | EmptyString => inl ErrSyntax
  | _ => ParseUint_loop s 0
  end.

(** [strconv.ParseInt(s, 10, 64)] *)
Definition ParseInt (s : string) : ScanError + Z :=
  match s with
  | EmptyString => inl ErrSyntax
  | String b r =>
    let neg := code b =? 45 in
    let s := if (code b =? 43) || (code b =? 45) then r else s in
    match ParseUint s with
    | inl e => inl e
    | inr un =>
      if negb neg && (2 ^ 63 <=? un) then inl ErrRange
      else if neg && (2 ^ 63 <? un) then inl ErrRange
      else inr (if neg then - un else un)
    end
  end.

(** [ss.SkipSpace] as [Fscanf] runs it: a newline is an error, other
    white space is skipped. *)
Definition skipBlanks (s : string) : string :=
  skipRunes (λ b, asciiSpace b && negb (code b =? 10)) space2 space3 s.

Definition SkipSpace (s : string) : ScanError + string :=
  match skipBlanks s with
  | String b r => if code b =? 10 then inl ErrUnexpectedNewline else inr (String b r)
  | EmptyString => inr EmptyString
  end.

(** The bytes of the token accepted by [s.accept(digits)], with the
    digits of [%d] being "0123456789", and the input after them. *)
Fixpoint acceptDigits (s : string) : string * string :=
  match s with
  | String b r =>
    if (if digit_of b is Some _ then true else false)
    then let '(tok, rest) := acceptDigits r in (String b tok, rest)
    else (EmptyString, s)
  | EmptyString => (EmptyString, s)
  end.

(** [ss.scanInt] for the verb [d] and 64 bits. *)
Definition scanInt (s : string) : ScanError + (Z * string) :=
  match SkipSpace s with
  | inl e => inl e
  | inr s =>
    match s with
    | EmptyString => inl ErrEOF                            (* s.notEOF() *)
    | String b r =>
      let '(sign, s) :=                                    (* s.accept(sign) *)
        if (code b =? 43) || (code b =? 45) then (String b EmptyString, r)
        else (EmptyString, s) in
      match s with
      | EmptyString => inl ErrEOF                          (* s.notEOF() *)
      | _ =>
        let '(tok, rest) := acceptDigits s in
        match tok with
        | EmptyString => inl ErrExpectedInteger
        | _ => match ParseInt (sign +:+ tok) with
               | inl e => inl e
               | inr i => inr (i, rest)
               end
        end
      end
    end
  end.

(** The space of the format between the two verbs ([ss.advance]): the
    input is at its end, or holds white space other than a newline. *)
Definition advanceSpace (s : string) : ScanError + string :=
  match s with
  | EmptyString => inr s
  | String b _ =>
    if code b =? 10 then inl ErrNewlineInInput
    else let r := skipBlanks s in
         if String.eqb r s then inl ErrExpectedSpace else inr r
  end.

(** [fmt.Fscanf(strings.NewReader(line), "%d %d", &cell.x, &cell.y)]: the
    number of items stored, the error, and the cell as the call leaves it. *)
Definition Fscanf (line : string) (cell : Cell) : nat * option ScanError * Cell :=
  match scanInt line with
  | inl e => (0%nat, Some e, cell)
  | inr (vx, s) =>
    let cell := mkCell vx (y cell) in
    match advanceSpace s with
    | inl e => (1%nat, Some e, cell)
    | inr s =>
      match scanInt s with
      | inl e => (1%nat, Some e, cell)
      | inr (vy, _) => (2%nat, None, mkCell (x cell) vy)
      end
    end
  end.

(** ** Reading and writing Life 1.06 files *)

Inductive ParseError : Set :=
| ErrOpen                                       (* the error of [os.Open] *)
| ErrLine (n : Z) (err : option ScanError)      (* "failed to parse line '%d', %v" *)
| ErrHeader.                                    (* "Invalid Game of Life file: needed %s indicator as first line" *)

(** The files that can be opened, with their contents. *)
Abbreviation FileSystem := (gmap string string).

(** The [for scanner.Scan()] loop of [parseCells] over the lines still to
    be read; the state is the [cells] map and [headerFound]. *)
Fixpoint parseLoop (lines : list string) (cells : Cells) (headerFound : bool)
  : ParseError + (Cells * bool) :=
  match lines with
  | [] => inr (cells, headerFound)
  | text :: lines =>
    let line := TrimSpace text in
    if HasPrefix line "#" then
      let headerFound :=
        if String.eqb line FILE_HEADER && (size cells =? 0)%nat then true else headerFound in
      parseLoop lines cells headerFound
    else
      let '(items, err, cell) := Fscanf line (mkCell 0 0) in
      if (items <? 2)%nat || (if err is Some _ then true else false)
      then inl (ErrLine (Z.of_nat (size cells) + 1) err)
      else parseLoop lines (addCell cells cell) headerFound
  end.

(** [func parseCells(inputFile string) (Cells, error)] *)
Definition parseCells (fs : FileSystem) (inputFile : string) : ParseError + Cells :=
  match fs !! inputFile with
  | None => inl ErrOpen
  | Some data =>
    match parseLoop (scanLines data) ∅ false with
    | inl err => inl err
    | inr (cells, headerFound) =>
      if negb headerFound then inl ErrHeader else inr cells
    end
  end.

(** An [io.Writer]: what has been written, and how many more writes
    succeed ([None]: all of them). *)
Record Writer : Set := mkWriter { written : string; room : option nat }.

Inductive WriteError : Set := ErrWrite.

Definition Fprintf (w : Writer) (text : string) : WriteError + Writer :=
  match room w with
  | None => inr (mkWriter (written w +:+ text) None)
  | Some (S n) => inr (mkWriter (written w +:+ text) (Some n))
  | Some O => inl ErrWrite
  end.

(** The [for cell := range cells] loop of [printCells]. *)
Fixpoint printLoop (w : Writer) (cells : list Cell) : Writer * option WriteError :=
  match cells with
  | [] => (w, None)
  | cell :: cells =>
    match Fprintf w (fmt_d (x cell) +:+ " " +:+ fmt_d (y cell) +:+ String newline "") with
    | inl err => (w, Some err)
    | inr w => printLoop w cells
    end
  end.

(** [func printCells(w io.Writer, cells Cells) error]; [o] is the order of
    its map loop. *)
Definition printCells (o : MapOrder) (w : Writer) (cells : Cells) : Writer * option WriteError :=
  match Fprintf w (FILE_HEADER +:+ String newline (String newline "")) with
  | inl err => (w, Some err)
  | inr w => printLoop w (o cells)
  end.

(** ** The program *)

(** The package-level flag variables, as [flag.Parse] leaves them. *)
Record Flags : Set := mkFlags { inputArg : string; iterationsArg : Z }.

Inductive RunError : Set :=
| ErrParsing (err : ParseError)     (* "parsing cells failed: %v" *)
| ErrPrinting (err : WriteError).   (* "printing cells failed: %v" *)

(** What a run leaves behind: [os.Stdout], the events on [os.Stderr], and
    the error returned. *)
Record Outcome : Set := mkOutcome {
  stdout : Writer;
  stderr : list Event;
  failure : option RunError
}.

(** [func runGameOfLife(inputFile string, iterations int) error]; [flags]
    is the state of the package-level variables, [fs] the file system,
    [sched] and [o] the orders of the map loops. *)
Definition runGameOfLife (flags : Flags) (fs : FileSystem) (sched : nat → StepOrder)
    (o : MapOrder) (out : Writer) (inputFile : string) (iterations : Z) : Outcome :=
  match parseCells fs (inputArg flags) with
  | inl err => mkOutcome out [] (Some (ErrParsing err))
  | inr cells =>
    let '(cells, log) := simulate sched iterations cells in
    match printCells o out cells with
    | (out, Some err) => mkOutcome out log (Some (ErrPrinting err))
    | (out, None) => mkOutcome out log None
    end
  end.

(** [func main()], after [flag.Parse()]. *)
Definition main (flags : Flags) (fs : FileSystem) (sched : nat → StepOrder)
    (o : MapOrder) (out : Writer) : Outcome :=
  runGameOfLife flags fs sched o out (inputArg flags) (iterationsArg flags).

(** A writer that accepts every write, holding nothing yet. *)
Definition buffer : Writer := mkWriter "" None.

(** ** Reference notions used in the statements *)

(** [d] lies in the Moore neighbourhood of [c], with the offsets taken in
    the integers (no wrap-around). *)
Definition moore (c d : Cell) : Prop :=
  ∃ dx dy, (dx = -1 ∨ dx = 0 ∨ dx = 1) ∧ (dy = -1 ∨ dy = 0 ∨ dy = 1) ∧
           x d = x c + dx ∧ y d = y c + dy.

(** A coordinate of [c] is the least or the greatest int64. *)
Definition at_extreme (c : Cell) : Prop :=
  x c = MinInt64 ∨ x c = MaxInt64 ∨ y c = MinInt64 ∨ y c = MaxInt64.

(** A comment line: what [parseCells] skips. *)
Definition isComment (text : string) : bool := HasPrefix (TrimSpace text) "#".

(** A coordinate line: a line that is no comment and from which [Fscanf]
    reads two integers without error. *)
Definition isCoordinate (text : string) : bool :=
  negb (isComment text) &&
  (let '(items, err, _) := Fscanf (TrimSpace text) (mkCell 0 0) in
   negb ((items <? 2)%nat || (if err is Some _ then true else false))).

(** A line [parseCells] accepts: a comment or a coordinate line. *)
Definition lineOK (text : string) : bool := isComment text || isCoordinate text.

(** The header line: the line that, trimmed, is the header token. *)
Definition isHeader (text : string) : bool := String.eqb (TrimSpace text) FILE_HEADER.

(** The text of a file made of the given lines, each ended by a newline. *)
Fixpoint unlines (lines : list string) : string :=
  match lines with
  | [] => ""
  | line :: lines => line +:+ String newline (unlines lines)
  end.

(** *** Notions about decimal text *)

(** A decimal digit. *)
Definition isDigit (b : ascii) : bool := if digit_of b is Some _ then true else false.

(** A string of decimal digits. *)
Fixpoint all_digits (s : string) : bool :=
  match s with
  | EmptyString => true
  | String b r => isDigit b && all_digits r
  end.

(** The digits that [%d] prints for [v], after the sign. *)
Definition abs_digits (v : Z) : string := NilEmpty.string_of_uint (N.to_uint (Z.abs_N v)).

(** A byte that starts a number: a minus sign or a digit. *)
Definition numberStart (b : ascii) : bool := (code b =? 45) || isDigit b.

(** Where a token of digits ends: at the end of the input, or before a byte
    that is no digit. *)
Definition tokenEnd (s : string) : bool :=
  match s with
  | EmptyString => true
  | String b _ => negb (isDigit b)
  end.

(** The line that [printCells] writes for a cell, without its newline. *)
Definition cell_line (cell : Cell) : string := fmt_d (x cell) +:+ " " +:+ fmt_d (y cell).

(** A string that ends with a digit. *)
Definition endsWithDigit (s : string) : Prop := ∃ p d, s = p +:+ String d "" ∧ isDigit d = true.

(** A string without newline byte. *)
Fixpoint no_newline (s : string) : bool :=
  match s with
  | EmptyString => true
  | String b r => negb (code b =? 10) && no_newline r
  end.

(** *** Patterns *)

Definition blinker : Cells := {[ mkCell 0 0; mkCell 1 0; mkCell 2 0 ]}.
Definition blinker_vertical : Cells := {[ mkCell 1 (-1); mkCell 1 0; mkCell 1 1 ]}.

(** *** Notions used in further statements *)

(** The still life of four cells. *)
Definition block : Cells := {[ mkCell 0 0; mkCell 1 0; mkCell 0 1; mkCell 1 1 ]}.

(** The number of the iteration that a log line opens. *)
Definition iterationOf (e : Event) : option Z :=
  match e with EvIteration i => Some i | _ => None end.

(** The cell of a coordinate line. *)
Definition lineCell (text : string) : option Cell :=
  if isCoordinate text then Some (Fscanf (TrimSpace text) (mkCell 0 0)).2 else None.

(** [c] is at most [k] columns and [k] rows away from [a], the
    differences being taken in the integers. *)
Definition near (k : Z) (a c : Cell) : Prop :=
  -k <= x c - x a <= k ∧ -k <= y c - y a <= k.

(** The error of the scan of a line. *)
Definition scanError (text : string) : option ScanError :=
  (Fscanf (TrimSpace text) (mkCell 0 0)).1.2.

(** A comment line of 64 KiB: [#] and 65535 times the letter a. *)
Definition longComment : string := String "#" (N.iter 65535 (String "a") "").

(** A header line comes before the first line that is no comment. *)
Fixpoint headerFirst (lines : list string) : bool :=
  match lines with
  | [] => false
  | text :: lines => isComment text && (isHeader text || headerFirst lines)
  end.

(** The texts of the successive writes of [printCells]. *)
Definition printWrites (o : MapOrder) (cells : Cells) : list string :=
  (FILE_HEADER +:+ String newline (String newline ""))
  :: map (λ cell, fmt_d (x cell) +:+ " " +:+ fmt_d (y cell) +:+ String newline "") (o cells).

(** * Properties of the simulation *)

(** ** Machine integers *)

Lemma wrap64_id z : int64 z → wrap64 z = z.
Proof.
  unfold int64, wrap64, MinInt64, MaxInt64. intros Hz.
  rewrite Z.mod_small; lia.
Qed.

Lemma sub64_1 z : int64 z → MinInt64 < z → sub64 z 1 = z - 1.
Proof. unfold sub64, int64. intros Hz Hlt. apply wrap64_id. unfold int64. lia. Qed.

Lemma add64_1 z : int64 z → z < MaxInt64 → add64 z 1 = z + 1.
Proof. unfold add64, int64. intros Hz Hlt. apply wrap64_id. unfold int64. lia. Qed.

(** ** Map loops *)

Lemma range_order_elem_of (o : MapOrder) (m : Cells) (c : Cell) :
  range_order o → c ∈ o m ↔ c ∈ m.
Proof. intros Ho. rewrite (Ho m). apply elem_of_elements. Qed.

Lemma range_order_elements : range_order elements_order.
Proof. intros m. reflexivity. Qed.

Lemma step_order_elements : step_order elements_step.
Proof. repeat split; apply range_order_elements. Qed.

Lemma schedule_elements : schedule elements_sched.
Proof. intros i. apply step_order_elements. Qed.

Lemma range_order_reverse : range_order reverse_order.
Proof. intros m. apply reverse_Permutation. Qed.

Lemma schedule_reverse : schedule reverse_sched.
Proof.
  intros i. unfold reverse_sched. destruct (Nat.even i).
  - repeat split; (apply range_order_reverse || apply range_order_elements).
  - apply step_order_elements.
Qed.

(** A loop that adds to a map the visited cells that pass a test. *)
Lemma foldl_addCell_if (p : Cell → bool) (l : list Cell) (acc : Cells) (d : Cell) :
  d ∈ foldl (λ a c, if p c then addCell a c else a) acc l
  ↔ d ∈ acc ∨ (d ∈ l ∧ p d = true).
Proof.
  revert acc. induction l as [|c l IH]; intros acc; simpl.
  - rewrite elem_of_nil. tauto.
  - rewrite IH, elem_of_cons. unfold addCell.
    destruct (p c) eqn:Hp.
    + rewrite elem_of_union, elem_of_singleton. intuition congruence.
    + intuition congruence.
Qed.

Lemma foldl_neighbors_dead (cells : Cells) (l : list Cell) (acc : Cells) (d : Cell) :
  d ∈ foldl (λ dead cell,
               foldl (λ dead neighbor,
                        if negb (hasCell cells neighbor) then addCell dead neighbor else dead)
                     dead (neighbors cell)) acc l
  ↔ d ∈ acc ∨ ((d ∉ cells) ∧ (∃ c, c ∈ l ∧ d ∈ neighbors c)).
Proof.
  revert acc. induction l as [|c l IH]; intros acc; simpl.
  - set_solver.
  - rewrite IH, (foldl_addCell_if (λ n, negb (hasCell cells n))).
    unfold hasCell. rewrite negb_true_iff, bool_decide_eq_false.
    split.
    + intros [[?|[? ?]]|[? [c' [? ?]]]]; [by left|right..]; split; try done.
      * exists c. split; [left|done].
      * exists c'. split; [by right|done].
    + intros [?|[? [c' [Hin ?]]]]; [by left; left|].
      apply elem_of_cons in Hin as [->|?]; [left; right; done|].
      right. split; [done|]. by exists c'.
Qed.

Lemma elem_of_deadNeighbors (scan emit : MapOrder) (cells : Cells) (d : Cell) :
  range_order scan → range_order emit →
  d ∈ deadNeighbors scan emit cells ↔ (d ∉ cells) ∧ (∃ c, c ∈ cells ∧ d ∈ neighbors c).
Proof.
  intros Hs He. unfold deadNeighbors.
  rewrite (range_order_elem_of emit) by done.
  rewrite foldl_neighbors_dead.
  setoid_rewrite (range_order_elem_of scan cells); [|done].
  set_solver.
Qed.

Lemma elem_of_dyingCells (o : StepOrder) (cells : Cells) (c : Cell) :
  step_order o →
  c ∈ dyingCells_of o cells
  ↔ c ∈ cells ∧ (numAliveNeighbors cells c < 2 ∨ 3 < numAliveNeighbors cells c).
Proof.
  intros (Hc & _). unfold dyingCells_of.
  rewrite (foldl_addCell_if
             (λ c, (numAliveNeighbors cells c <? 2) || (3 <? numAliveNeighbors cells c))).
  rewrite (range_order_elem_of _ cells) by done.
  rewrite orb_true_iff, !Z.ltb_lt. set_solver.
Qed.

Lemma elem_of_birthedCells (o : StepOrder) (cells : Cells) (d : Cell) :
  step_order o →
  d ∈ birthedCells_of o cells
  ↔ ((d ∉ cells) ∧ (∃ c, c ∈ cells ∧ d ∈ neighbors c)) ∧ numAliveNeighbors cells d = 3.
Proof.
  intros (_ & Hs & He & _). unfold birthedCells_of.
  rewrite (foldl_addCell_if (λ c, numAliveNeighbors cells c =? 3)).
  rewrite elem_of_deadNeighbors by done.
  rewrite Z.eqb_eq. set_solver.
Qed.

Lemma foldl_removeCell_fst (l : list Cell) (st : Cells * list Event) (d : Cell) :
  d ∈ (foldl (λ st cell, (removeCell st.1 cell, st.2 ++ [EvDying cell])) st l).1
  ↔ d ∈ st.1 ∧ d ∉ l.
Proof.
  revert st. induction l as [|c l IH]; intros st; simpl.
  - set_solver.
  - rewrite IH. simpl. unfold removeCell. set_solver.
Qed.

Lemma foldl_addCell_fst (l : list Cell) (st : Cells * list Event) (d : Cell) :
  d ∈ (foldl (λ st cell, (addCell st.1 cell, st.2 ++ [EvBorn cell])) st l).1
  ↔ d ∈ st.1 ∨ d ∈ l.
Proof.
  revert st. induction l as [|c l IH]; intros st; simpl.
  - set_solver.
  - rewrite IH. simpl. unfold addCell. set_solver.
Qed.

(** The cells alive after one iteration. *)
Lemma elem_of_step (o : StepOrder) (iteration : Z) (st : Cells * list Event) (d : Cell) :
  step_order o →
  d ∈ (step o iteration st).1
  ↔ (d ∈ st.1 ∧ (numAliveNeighbors st.1 d = 2 ∨ numAliveNeighbors st.1 d = 3))
    ∨ ((d ∉ st.1) ∧ (∃ c, c ∈ st.1 ∧ d ∈ neighbors c) ∧ numAliveNeighbors st.1 d = 3).
Proof.
  intros Ho. unfold step.
  rewrite foldl_addCell_fst, foldl_removeCell_fst. simpl.
  destruct Ho as (? & ? & ? & Hd & Hb).
  rewrite (range_order_elem_of _ _ _ Hd), (range_order_elem_of _ _ _ Hb).
  rewrite elem_of_dyingCells, elem_of_birthedCells by (repeat split; done).
  split.
  - intros [[Hin Hnd]|[[Hnin Hn] H3]]; [left|right; done].
    split; [done|].
    assert (¬ (numAliveNeighbors st.1 d < 2 ∨ 3 < numAliveNeighbors st.1 d)) by tauto.
    lia.
  - intros [[Hin Hn]|(Hnin & Hn & H3)]; [left|right; done].
    split; [done|]. intros [_ ?]. lia.
Qed.

(** ** Neighbour enumeration *)

Lemma neighbors_length (c : Cell) : (length (neighbors c) ≤ 8)%nat.
Proof.
  unfold neighbors. rewrite Z.eqb_refl. simpl negb. cbv iota.
  repeat match goal with |- context [if ?b then _ else _] => destruct b end;
    simpl; lia.
Qed.

(** The [uint8] counter never wraps: it counts the neighbours that are alive. *)
Lemma foldl_aliveCount (cells : Cells) (l : list Cell) (acc : Z) :
  0 <= acc → acc + Z.of_nat (length l) < 256 →
  foldl (λ aliveCount neighbor,
           if hasCell cells neighbor then wrap8 (aliveCount + 1) else aliveCount) acc l
  = acc + Z.of_nat (length (filter (λ d, d ∈ cells) l)).
Proof.
  revert acc. induction l as [|d l IH]; intros acc H0 Hlt; simpl in *.
  - lia.
  - rewrite filter_cons. destruct (decide (d ∈ cells)) as [Hd|Hd].
    + replace (hasCell cells d) with true
        by (symmetry; by apply bool_decide_eq_true_2).
      unfold wrap8. rewrite Z.mod_small by lia. rewrite IH by lia. simpl. lia.
    + replace (hasCell cells d) with false
        by (symmetry; by apply bool_decide_eq_false_2).
      rewrite IH by lia. done.
Qed.

Lemma numAliveNeighbors_count (cells : Cells) (c : Cell) :
  numAliveNeighbors cells c = Z.of_nat (length (filter (λ d, d ∈ cells) (neighbors c))).
Proof.
  unfold numAliveNeighbors. pose proof (neighbors_length c).
  rewrite foldl_aliveCount; lia.
Qed.

Lemma numAliveNeighbors_bound (cells : Cells) (c : Cell) :
  0 <= numAliveNeighbors cells c <= 8.
Proof.
  rewrite numAliveNeighbors_count.
  pose proof (neighbors_length c).
  pose proof (length_filter (λ d, d ∈ cells) (neighbors c)). lia.
Qed.

Ltac neighbors_cases cx cy Hx Hy :=
  unfold neighbors; cbn [x y];
  rewrite Z.eqb_refl; cbn [negb];
  destruct (Z.ltb_spec MinInt64 cx); destruct (Z.ltb_spec cx MaxInt64);
  destruct (Z.ltb_spec MinInt64 cy); destruct (Z.ltb_spec cy MaxInt64);
  rewrite ?(sub64_1 cx), ?(add64_1 cx), ?(sub64_1 cy), ?(add64_1 cy) by done;
  repeat match goal with
         | |- context [cx =? ?z] => destruct (Z.eqb_spec cx z); [lia|]
         end;
  cbn [negb app].

Lemma elem_of_neighbors_near (c d : Cell) :
  Cell_ok c →
  d ∈ neighbors c
  ↔ Cell_ok d ∧ d ≠ c ∧ -1 <= x d - x c <= 1 ∧ -1 <= y d - y c <= 1.
Proof.
  destruct c as [cx cy], d as [ex ey]. unfold Cell_ok. cbn [x y].
  intros [Hx Hy]. pose proof Hx as Hx'. pose proof Hy as Hy'.
  unfold int64 in Hx', Hy' |- *.
  neighbors_cases cx cy Hx Hy.
  all: rewrite ?elem_of_cons, ?elem_of_nil.
  all: split.
  all: try (intros H';
    repeat match goal with H : _ ∨ _ |- _ => destruct H end; try done;
    simplify_eq; (split; [lia|]); (split; [intros [= ]; lia|lia])).
  all: intros ([? ?] & Hne & ? & ?).
  all: assert (ex = cx - 1 ∨ ex = cx ∨ ex = cx + 1) as [->|[->| ->]] by lia.
  all: assert (ey = cy - 1 ∨ ey = cy ∨ ey = cy + 1) as [->|[->| ->]] by lia.
  all: first [lia | done | by repeat (first [left; reflexivity | right])].
Qed.

Lemma moore_near (c d : Cell) :
  moore c d ↔ -1 <= x d - x c <= 1 ∧ -1 <= y d - y c <= 1.
Proof.
  unfold moore. split.
  - intros (dx & dy & ? & ? & ? & ?). lia.
  - intros [? ?]. exists (x d - x c), (y d - y c). lia.
Qed.

Lemma elem_of_neighbors (c d : Cell) :
  Cell_ok c → d ∈ neighbors c ↔ Cell_ok d ∧ d ≠ c ∧ moore c d.
Proof. intros Hc. rewrite elem_of_neighbors_near, moore_near; done. Qed.

Lemma NoDup_neighbors (c : Cell) : Cell_ok c → NoDup (neighbors c).
Proof.
  destruct c as [cx cy]. unfold Cell_ok. cbn [x y].
  intros [Hx Hy]. pose proof Hx as Hx'. pose proof Hy as Hy'.
  unfold int64 in Hx', Hy'.
  neighbors_cases cx cy Hx Hy.
  all: repeat (apply NoDup_cons; split;
               [rewrite ?elem_of_cons, ?elem_of_nil; intros H';
                repeat match goal with H : _ ∨ _ |- _ => destruct H end; try done;
                simplify_eq; lia|]).
  all: apply NoDup_nil; done.
Qed.

Lemma neighbors_length_lt (c : Cell) :
  Cell_ok c → (length (neighbors c) < 8)%nat ↔ at_extreme c.
Proof.
  destruct c as [cx cy]. unfold Cell_ok, at_extreme. cbn [x y].
  intros [Hx Hy]. pose proof Hx as Hx'. pose proof Hy as Hy'.
  unfold int64 in Hx', Hy'.
  neighbors_cases cx cy Hx Hy; cbn [length]; lia.
Qed.

(** C2.  For a cell with int64 coordinates, [neighbors] sends exactly the
    cells of its Moore neighbourhood, other than the cell itself, whose
    coordinates are int64 values: an offset that leaves the int64 range is
    skipped, neither wrapped nor saturated.  The cells sent are pairwise
    distinct and at most 8, and fewer than 8 only when a coordinate of
    the cell is an int64 extreme. *)
Theorem neighbors_moore (c : Cell) :
  Cell_ok c →
  (∀ d, d ∈ neighbors c ↔ Cell_ok d ∧ d ≠ c ∧ moore c d) ∧
  NoDup (neighbors c) ∧
  (length (neighbors c) ≤ 8)%nat ∧
  ((length (neighbors c) < 8)%nat → at_extreme c).
Proof.
  intros Hc. split; [|split; [|split]].
  - intros d. by apply elem_of_neighbors.
  - by apply NoDup_neighbors.
  - apply neighbors_length.
  - by apply neighbors_length_lt.
Qed.

Lemma neighbors_moore_witness :
  Cell_ok (mkCell MinInt64 7) ∧
  (∀ d, d ∈ neighbors (mkCell MinInt64 7)
        ↔ Cell_ok d ∧ d ≠ mkCell MinInt64 7 ∧ moore (mkCell MinInt64 7) d) ∧
  NoDup (neighbors (mkCell MinInt64 7)) ∧
  (length (neighbors (mkCell MinInt64 7)) ≤ 8)%nat ∧
  ((length (neighbors (mkCell MinInt64 7)) < 8)%nat → at_extreme (mkCell MinInt64 7)).
Proof.
  split.
  - unfold Cell_ok, int64, MinInt64, MaxInt64. simpl. lia.
  - apply (neighbors_moore (mkCell MinInt64 7)).
    unfold Cell_ok, int64, MinInt64, MaxInt64. simpl. lia.
Defined.

(** ** Generations *)

Lemma step_fst_indep (o o' : StepOrder) (i i' : Z) (st st' : Cells * list Event) :
  step_order o → step_order o' → st.1 = st'.1 →
  (step o i st).1 = (step o' i' st').1.
Proof.
  intros Ho Ho' Heq. apply set_eq. intros d.
  rewrite !elem_of_step by done. rewrite Heq. done.
Qed.

Lemma loop_fst_indep (sched sched' : nat → StepOrder) (l : list nat)
    (st st' : Cells * list Event) :
  schedule sched → schedule sched' → st.1 = st'.1 →
  (foldl (λ st i, step (sched i) (Z.of_nat i) st) st l).1
  = (foldl (λ st i, step (sched' i) (Z.of_nat i) st) st' l).1.
Proof.
  intros Hs Hs'. revert st st'. induction l as [|i l IH]; intros st st' Heq; simpl.
  - done.
  - apply IH. by apply step_fst_indep.
Qed.

Lemma simulate_fst_indep (sched sched' : nat → StepOrder) (iterations : Z) (cells : Cells) :
  schedule sched → schedule sched' →
  (simulate sched iterations cells).1 = (simulate sched' iterations cells).1.
Proof. intros Hs Hs'. unfold simulate. by apply loop_fst_indep. Qed.

(** C1.  One iteration of the loop leaves alive exactly the cells of the
    pre-step set [C] that have 2 or 3 live neighbours in [C], together with
    the cells outside [C] that are a neighbour of some cell of [C] and have
    exactly 3 live neighbours in [C]; every count is taken in [C] itself. *)
Theorem step_rule (o : StepOrder) (iteration : Z) (C : Cells) (err : list Event) (d : Cell) :
  step_order o →
  d ∈ (step o iteration (C, err)).1
  ↔ (d ∈ C ∧ (numAliveNeighbors C d = 2 ∨ numAliveNeighbors C d = 3))
    ∨ ((d ∉ C) ∧ (∃ c, c ∈ C ∧ d ∈ neighbors c) ∧ numAliveNeighbors C d = 3).
Proof. intros Ho. by rewrite elem_of_step. Qed.

Lemma step_rule_witness :
  mkCell 1 1 ∈ (step elements_step 0 (blinker, [])).1
  ↔ (mkCell 1 1 ∈ blinker
     ∧ (numAliveNeighbors blinker (mkCell 1 1) = 2 ∨ numAliveNeighbors blinker (mkCell 1 1) = 3))
    ∨ ((mkCell 1 1 ∉ blinker) ∧ (∃ c, c ∈ blinker ∧ mkCell 1 1 ∈ neighbors c)
       ∧ numAliveNeighbors blinker (mkCell 1 1) = 3).
Proof.
  apply (step_rule elements_step 0 blinker [] (mkCell 1 1)).
  repeat split; intros m; reflexivity.
Defined.

(** C3.  Two runs over the same set of cells and the same iteration count
    end with the same set of cells, whatever order each map loop of each
    run visits its keys in. *)
Theorem simulate_deterministic (sched sched' : nat → StepOrder) (iterations : Z)
    (C C' : Cells) :
  schedule sched → schedule sched' → C ≡ C' →
  (simulate sched iterations C).1 ≡ (simulate sched' iterations C').1.
Proof.
  intros Hs Hs' HC. apply leibniz_equiv in HC. subst C'.
  by rewrite (simulate_fst_indep sched sched').
Qed.

Lemma simulate_deterministic_witness :
  (simulate elements_sched 3 blinker).1 ≡ (simulate reverse_sched 3 blinker).1.
Proof.
  apply (simulate_deterministic elements_sched reverse_sched 3 blinker blinker).
  - apply schedule_elements.
  - apply schedule_reverse.
  - reflexivity.
Defined.

(** C8.  The blinker becomes the vertical line after one generation and is
    back after two. *)
Theorem blinker_period (sched : nat → StepOrder) :
  schedule sched →
  (simulate sched 1 blinker).1 = blinker_vertical ∧
  (simulate sched 2 blinker).1 = blinker.
Proof.
  intros Hs.
  rewrite !(simulate_fst_indep sched elements_sched) by (done || apply schedule_elements).
  split; vm_compute; reflexivity.
Qed.

Lemma blinker_period_witness :
  (simulate reverse_sched 1 blinker).1 = blinker_vertical ∧
  (simulate reverse_sched 2 blinker).1 = blinker.
Proof. apply (blinker_period reverse_sched). apply schedule_reverse. Defined.

(** C9.  With [iterations = 0] the loop body never runs: the cells are the
    input and nothing is logged. *)
Theorem simulate_zero (sched : nat → StepOrder) (C : Cells) :
  simulate sched 0 C = (C, []).
Proof. reflexivity. Qed.

(** * Properties of the reader and the writer *)

(** ** Strings *)

Lemma app_String (b : ascii) (s t : string) : String b s +:+ t = String b (s +:+ t).
Proof. reflexivity. Qed.

Lemma app_nil_r (s : string) : s +:+ "" = s.
Proof. induction s as [|b s IH]; [done|]. by rewrite app_String, IH. Qed.

Lemma app_assoc (s t u : string) : (s +:+ t) +:+ u = s +:+ (t +:+ u).
Proof. induction s as [|b s IH]; [done|]. by rewrite !app_String, IH. Qed.

(** ** The writer *)

Lemma printLoop_buffer (l : list Cell) (text : string) :
  ∃ body, printLoop (mkWriter text None) l = (mkWriter (text +:+ body) None, None).
Proof.
  revert text. induction l as [|c l IH]; intros text; simpl.
  - exists "". by rewrite app_nil_r.
  - unfold Fprintf. simpl.
    destruct (IH (text +:+ (fmt_d (x c) +:+ " " +:+ fmt_d (y c) +:+ String newline "")))
      as [body ->].
    eexists. rewrite app_assoc. reflexivity.
Qed.

(** The text written starts with the header token and an empty line. *)
Lemma printCells_buffer (o : MapOrder) (cells : Cells) :
  ∃ body, printCells o buffer cells
          = (mkWriter (FILE_HEADER +:+ String newline (String newline body)) None, None).
Proof.
  destruct (printLoop_buffer (o cells) (FILE_HEADER +:+ String newline (String newline "")))
    as [body Hbody].
  exists body. etrans; [exact Hbody|]. reflexivity.
Qed.

Lemma scanLines_header (body : string) :
  scanLines (FILE_HEADER +:+ String newline (String newline body))
  = FILE_HEADER :: "" :: scanLines body.
Proof. reflexivity. Qed.

Lemma parseLoop_header_blank (lines : list string) :
  parseLoop (FILE_HEADER :: "" :: lines) ∅ false = inl (ErrLine 1 (Some ErrEOF)).
Proof. vm_compute. reflexivity. Qed.

Lemma parseLoop_blank (lines : list string) (cells : Cells) (headerFound : bool)
    (text : string) :
  text ∈ lines → TrimSpace text = "" →
  ∃ n err, parseLoop lines cells headerFound = inl (ErrLine n err).
Proof.
  intros Hin Hblank. revert cells headerFound.
  induction lines as [|t lines IH]; intros cells headerFound.
  - by apply elem_of_nil in Hin.
  - simpl. destruct (HasPrefix (TrimSpace t) "#") eqn:Hc.
    + apply IH. apply elem_of_cons in Hin as [->|Hin]; [|done].
      rewrite Hblank in Hc. discriminate.
    + destruct (Fscanf (TrimSpace t) (mkCell 0 0)) as [[items err] cell] eqn:Hscan.
      destruct ((items <? 2)%nat || (if err is Some _ then true else false)) eqn:Hbad.
      * eauto.
      * apply IH. apply elem_of_cons in Hin as [->|Hin]; [|done].
        rewrite Hblank in Hscan. vm_compute in Hscan. by simplify_eq.
Qed.

(** C10, as amended.  A file is rejected with the malformed-line error
    when a blank or white-space-only line is among the lines that the
    scanner delivers, which are the lines of the file before its first line
    of 64 KiB or more; so is the text that [printCells] writes, for its
    second line is empty. *)
Theorem blank_line_rejected :
  (∀ (fs : FileSystem) (inputFile data text : string),
      fs !! inputFile = Some data → text ∈ scanLines data → TrimSpace text = "" →
      ∃ n err, parseCells fs inputFile = inl (ErrLine n err)) ∧
  (∀ (fs : FileSystem) (inputFile : string) (o : MapOrder) (cells : Cells),
      fs !! inputFile = Some (written (printCells o buffer cells).1) →
      parseCells fs inputFile = inl (ErrLine 1 (Some ErrEOF))).
Proof.
  split.
  - intros fs inputFile data text Hfs Hin Hblank. unfold parseCells. rewrite Hfs.
    destruct (parseLoop_blank (scanLines data) ∅ false text Hin Hblank) as (n & err & ->).
    eauto.
  - intros fs inputFile o cells Hfs. unfold parseCells. rewrite Hfs.
    destruct (printCells_buffer o cells) as [body ->]. cbn [fst written].
    rewrite scanLines_header, parseLoop_header_blank. reflexivity.
Qed.

Lemma blank_line_rejected_witness :
  (∃ n err, parseCells {[ "in.life" := unlines [FILE_HEADER; "0 1"; "  "; "1 2"] ]} "in.life"
            = inl (ErrLine n err)) ∧
  parseCells {[ "out.life" := written (printCells elements_order buffer blinker).1 ]} "out.life"
  = inl (ErrLine 1 (Some ErrEOF)).
Proof.
  destruct blank_line_rejected as [Hblank Hprinted]. split.
  - apply (Hblank _ "in.life" (unlines [FILE_HEADER; "0 1"; "  "; "1 2"]) "  ").
    + reflexivity.
    + change ("  " ∈ [FILE_HEADER; "0 1"; "  "; "1 2"]).
      do 2 apply list_elem_of_further. apply list_elem_of_here.
    + reflexivity.
  - apply (Hprinted _ "out.life" elements_order blinker). reflexivity.
Defined.

(** C10, as stated, fails: the third line of the file below is empty, yet
    the file is read without error, as the empty set.  The scanner stops
    at the second line, a comment of 64 KiB, and [parseCells] takes that
    for the end of the file. *)
Lemma blank_line_counterexample :
  let data := unlines [FILE_HEADER; longComment; ""] in
  let fs : FileSystem := {[ "in.life" := data ]} in
  splitLines data = [FILE_HEADER; longComment; ""] ∧
  isComment "" = false ∧
  TrimSpace "" = "" ∧
  parseCells fs "in.life" = inr ∅ ∧
  ¬ (∃ n err, parseCells fs "in.life" = inl (ErrLine n err)).
Proof.
  assert (parseCells {[ "in.life" := unlines [FILE_HEADER; longComment; ""] ]} "in.life"
          = inr ∅) as Hparse by (vm_compute; reflexivity).
  cbv zeta. repeat split; try (vm_compute; reflexivity).
  intros (n & err & Herr). rewrite Hparse in Herr. discriminate.
Qed.

(** ** Files without header *)

Lemma lineCell_comment (t : string) : isComment t = true → lineCell t = None.
Proof. intros Hc. unfold lineCell, isCoordinate. by rewrite Hc. Qed.

Lemma lineOK_scan (t : string) (items : nat) (err : option ScanError) (cell : Cell) :
  isComment t = false → Fscanf (TrimSpace t) (mkCell 0 0) = (items, err, cell) →
  lineOK t = negb ((items <? 2)%nat || (if err is Some _ then true else false)) ∧
  lineCell t
  = if (items <? 2)%nat || (if err is Some _ then true else false) then None else Some cell.
Proof.
  intros Hc Hscan. unfold lineOK, lineCell, isCoordinate. rewrite Hc, Hscan. simpl.
  by destruct ((items <? 2)%nat || (if err is Some _ then true else false)).
Qed.

Lemma omap_lineCell_cons (t : string) (lines : list string) :
  omap lineCell (t :: lines)
  = match lineCell t with
    | Some cell => cell :: omap lineCell lines
    | None => omap lineCell lines
    end.
Proof. reflexivity. Qed.

(** The loop stops at the first line that is neither a comment nor a
    coordinate line, with the error of the scan of that line and with the
    number of cells held at that point plus one. *)
Lemma parseLoop_first_bad (pre post : list string) (bad : string) (cells : Cells)
    (headerFound : bool) :
  forallb lineOK pre = true → lineOK bad = false →
  parseLoop (pre ++ bad :: post) cells headerFound
  = inl (ErrLine (Z.of_nat (size (cells ∪ list_to_set (omap lineCell pre))) + 1)
                 (scanError bad)).
Proof.
  intros Hpre Hbad. revert cells headerFound.
  induction pre as [|t pre IH]; intros cells headerFound.
  - cbn [app parseLoop]. change (HasPrefix (TrimSpace bad) "#") with (isComment bad).
    destruct (isComment bad) eqn:Hc; [by unfold lineOK in Hbad; rewrite Hc in Hbad|].
    unfold scanError.
    destruct (Fscanf (TrimSpace bad) (mkCell 0 0)) as [[items err] cell] eqn:Hscan.
    destruct (lineOK_scan bad items err cell Hc Hscan) as [HOK _].
    rewrite Hbad in HOK. symmetry in HOK. apply negb_false_iff in HOK. rewrite HOK.
    cbn [fst snd]. change (omap lineCell []) with (@nil Cell).
    by rewrite list_to_set_nil, (right_id_L ∅ (∪)).
  - cbn [forallb] in Hpre. apply andb_true_iff in Hpre as [Ht Hpre].
    rewrite omap_lineCell_cons. cbn [app parseLoop].
    change (HasPrefix (TrimSpace t) "#") with (isComment t).
    destruct (isComment t) eqn:Hc.
    + rewrite lineCell_comment by done. by apply IH.
    + destruct (Fscanf (TrimSpace t) (mkCell 0 0)) as [[items err] cell] eqn:Hscan.
      destruct (lineOK_scan t items err cell Hc Hscan) as [HOK ->].
      rewrite Ht in HOK. symmetry in HOK. apply negb_true_iff in HOK. rewrite HOK.
      rewrite IH by done. unfold addCell.
      assert (({[cell]} ∪ cells) ∪ list_to_set (omap lineCell pre)
              = cells ∪ list_to_set (cell :: omap lineCell pre)) as -> by set_solver.
      done.
Qed.

Lemma parseLoop_comments (comments lines : list string) (cells : Cells) (headerFound : bool) :
  Forall (λ c, isComment c = true ∧ isHeader c = false) comments →
  parseLoop (comments ++ lines) cells headerFound = parseLoop lines cells headerFound.
Proof.
  induction 1 as [|c comments [Hc Hh] _ IH]; [done|].
  simpl. unfold isComment in Hc. unfold isHeader in Hh. by rewrite Hc, Hh.
Qed.

Lemma size_addCell (cells : Cells) (cell : Cell) : size (addCell cells cell) ≠ 0%nat.
Proof.
  unfold addCell. intros Hsz. apply size_empty_iff in Hsz.
  assert (cell ∈ ({[cell]} ∪ cells : Cells)) as Hin by set_solver.
  rewrite Hsz in Hin. by apply not_elem_of_empty in Hin.
Qed.

(** Once a cell has been read the header is no longer looked for: the loop
    ends with [headerFound] still unset, or at the first line that is
    neither a comment nor a coordinate line. *)
Lemma parseLoop_no_header (lines : list string) (cells : Cells) :
  size cells ≠ 0%nat →
  if forallb lineOK lines
  then ∃ cells', parseLoop lines cells false = inr (cells', false)
  else ∃ n err, parseLoop lines cells false = inl (ErrLine n err).
Proof.
  revert cells. induction lines as [|t lines IH]; intros cells Hsz; simpl.
  - eauto.
  - unfold lineOK at 1, isCoordinate, isComment.
    destruct (HasPrefix (TrimSpace t) "#") eqn:Hc; simpl.
    + replace (size cells =? 0)%nat with false by (symmetry; by apply Nat.eqb_neq).
      rewrite andb_false_r. by apply IH.
    + destruct (Fscanf (TrimSpace t) (mkCell 0 0)) as [[items err] cell] eqn:Hscan.
      destruct ((items <? 2)%nat || (if err is Some _ then true else false)) eqn:Hbad; simpl.
      * eauto.
      * apply IH. apply size_addCell.
Qed.

(** C7, as amended.  Take the lines that the scanner delivers.  When the
    first of them that is no comment is a coordinate line, with no header
    line before it, [parseCells] returns no cell set: it returns the header
    error when every later line is a comment or a coordinate line, and
    otherwise the malformed-line error of the first later line that is
    neither, with the error of the scan of that line and with the number
    of distinct cells read before it plus one. *)
Theorem missing_header_rejected (fs : FileSystem) (inputFile data : string)
    (comments : list string) (first : string) (rest : list string) :
  fs !! inputFile = Some data →
  scanLines data = comments ++ first :: rest →
  Forall (λ c, isComment c = true ∧ isHeader c = false) comments →
  isCoordinate first = true →
  (forallb lineOK rest = true → parseCells fs inputFile = inl ErrHeader) ∧
  (∀ pre bad post,
      rest = pre ++ bad :: post → forallb lineOK pre = true → lineOK bad = false →
      parseCells fs inputFile
      = inl (ErrLine
               (Z.of_nat (size (list_to_set (omap lineCell (first :: pre)) : Cells)) + 1)
               (scanError bad))).
Proof.
  intros Hfs Hlines Hcomments Hfirst.
  unfold parseCells. rewrite Hfs, Hlines, parseLoop_comments by done.
  assert (lineOK first = true) as HfirstOK
    by (unfold lineOK; by rewrite Hfirst, orb_true_r).
  split.
  - intros Hrest. cbn [parseLoop].
    unfold isCoordinate, isComment in Hfirst.
    destruct (HasPrefix (TrimSpace first) "#"); [done|]. simpl in Hfirst.
    destruct (Fscanf (TrimSpace first) (mkCell 0 0)) as [[items err] cell].
    destruct ((items <? 2)%nat || (if err is Some _ then true else false)); [done|].
    pose proof (parseLoop_no_header rest (addCell ∅ cell) (size_addCell _ _)) as Hloop.
    rewrite Hrest in Hloop. by destruct Hloop as [cells' ->].
  - intros pre bad post -> Hpre Hbad.
    rewrite (parseLoop_first_bad (first :: pre) post bad ∅ false)
      by (done || (cbn [forallb]; by rewrite HfirstOK, Hpre)).
    by rewrite (left_id_L ∅ (∪)).
Qed.

Lemma missing_header_rejected_witness :
  parseCells {[ "in.life" := unlines ["# glider"; "0 1"; "1 2"] ]} "in.life" = inl ErrHeader ∧
  parseCells {[ "in.life" := unlines ["0 1"; "# glider"; "0 1"; "1 2_"; "1"; "x" ] ]} "in.life"
  = inl (ErrLine 3 (Some ErrEOF)).
Proof.
  split.
  - apply (missing_header_rejected {[ "in.life" := unlines ["# glider"; "0 1"; "1 2"] ]}
             "in.life" (unlines ["# glider"; "0 1"; "1 2"]) ["# glider"] "0 1" ["1 2"]);
      [reflexivity|reflexivity|repeat constructor|reflexivity|reflexivity].
  - destruct (missing_header_rejected
                {[ "in.life" := unlines ["0 1"; "# glider"; "0 1"; "1 2_"; "1"; "x" ] ]}
                "in.life" (unlines ["0 1"; "# glider"; "0 1"; "1 2_"; "1"; "x" ])
                [] "0 1" ["# glider"; "0 1"; "1 2_"; "1"; "x"]) as [_ Hbad];
      [reflexivity|reflexivity|constructor|reflexivity|].
    apply (Hbad ["# glider"; "0 1"; "1 2_"] "1" ["x"]); reflexivity.
Defined.

(** C7, as stated, fails: the file below starts with a coordinate line and
    holds no header, and the error returned is the malformed-line error of
    its second line, not the header error. *)
Lemma missing_header_counterexample :
  let data := unlines ["1 2"; "foo"] in
  let fs : FileSystem := {[ "in.life" := data ]} in
  scanLines data = [] ++ "1 2" :: ["foo"] ∧
  isCoordinate "1 2" = true ∧
  parseCells fs "in.life" = inl (ErrLine 2 (Some ErrExpectedInteger)) ∧
  parseCells fs "in.life" ≠ inl ErrHeader.
Proof. repeat split; try reflexivity. vm_compute. discriminate. Qed.

Lemma size_addCell_le (cells : Cells) (cell : Cell) :
  (size (addCell cells cell) ≤ S (size cells))%nat.
Proof.
  unfold addCell. rewrite size_union_alt, size_singleton.
  apply le_n_S, subseteq_size. set_solver.
Qed.

(** The loop stops at the first line that is neither a comment nor a
    coordinate line, whatever follows it.  The number in the error is at
    least 1 and at most one more than the cells held before plus the
    coordinate lines read: comment lines, and cells met again, do not
    raise it. *)
Lemma parseLoop_malformed (pre post : list string) (bad : string) (cells : Cells)
    (headerFound : bool) :
  forallb lineOK pre = true → lineOK bad = false →
  ∃ n err, parseLoop (pre ++ bad :: post) cells headerFound = inl (ErrLine n err) ∧
           1 <= n <= Z.of_nat (size cells) + Z.of_nat (length (filter isCoordinate pre)) + 1.
Proof.
  intros Hpre Hbad. revert cells headerFound.
  induction pre as [|t pre IH]; intros cells headerFound.
  - cbn [app parseLoop]. unfold lineOK, isCoordinate, isComment in Hbad.
    destruct (HasPrefix (TrimSpace bad) "#"); [done|]. simpl in Hbad.
    destruct (Fscanf (TrimSpace bad) (mkCell 0 0)) as [[items err] cell].
    apply negb_false_iff in Hbad. rewrite Hbad.
    eexists _, _. split; [done|]. simpl. lia.
  - cbn [forallb] in Hpre. apply andb_true_iff in Hpre as [Ht Hpre].
    assert (length (filter isCoordinate (t :: pre))
            = ((if isCoordinate t then 1 else 0) + length (filter isCoordinate pre))%nat)
      as ->.
    { rewrite filter_cons. destruct (isCoordinate t); by case_decide. }
    cbn [app parseLoop]. unfold lineOK, isCoordinate, isComment in Ht.
    unfold isCoordinate at 1, isComment.
    destruct (HasPrefix (TrimSpace t) "#"); simpl in Ht |- *.
    + destruct (IH Hpre cells
                  (if (TrimSpace t =? FILE_HEADER)%string && (size cells =? 0)%nat
                   then true else headerFound)) as (n & err & -> & Hn).
      eauto.
    + destruct (Fscanf (TrimSpace t) (mkCell 0 0)) as [[items err] cell].
      apply negb_true_iff in Ht. rewrite Ht. simpl.
      destruct (IH Hpre (addCell cells cell) headerFound) as (n & err' & -> & Hn).
      pose proof (size_addCell_le cells cell).
      eexists _, _. split; [done|]. lia.
Qed.

(** C6, at the failing input.  The fourth line of the file, its third
    coordinate line, is the first malformed one; the error names line 2,
    the number of distinct cells read so far plus one. *)
Lemma malformed_line_number :
  let data := unlines [FILE_HEADER; "1 1"; "1 1"; "x y"] in
  let fs : FileSystem := {[ "in.life" := data ]} in
  scanLines data = [FILE_HEADER; "1 1"; "1 1"; "x y"] ∧
  forallb lineOK [FILE_HEADER; "1 1"; "1 1"] = true ∧
  lineOK "x y" = false ∧
  parseCells fs "in.life" = inl (ErrLine 2 (Some ErrExpectedInteger)).
Proof. repeat split; reflexivity. Qed.

(** ** The program *)

(** The [inputFile] argument of [runGameOfLife] is never read. *)
Lemma runGameOfLife_inputFile_unused (flags : Flags) (fs : FileSystem)
    (sched : nat → StepOrder) (o : MapOrder) (out : Writer)
    (inputFile inputFile' : string) (iterations : Z) :
  runGameOfLife flags fs sched o out inputFile iterations
  = runGameOfLife flags fs sched o out inputFile' iterations.
Proof. reflexivity. Qed.

(** C5, at the failing input.  Two calls with the same arguments and the
    same files print different cells, those of the file that the flag
    variable names. *)
Lemma runGameOfLife_reads_flag :
  let fs : FileSystem :=
    {[ "a.life" := unlines [FILE_HEADER; "1 1"]; "b.life" := unlines [FILE_HEADER; "2 2"] ]} in
  written (stdout (runGameOfLife (mkFlags "a.life" 0) fs elements_sched elements_order
                                 buffer "a.life" 0))
  = unlines [FILE_HEADER; ""; "1 1"] ∧
  written (stdout (runGameOfLife (mkFlags "b.life" 0) fs elements_sched elements_order
                                 buffer "a.life" 0))
  = unlines [FILE_HEADER; ""; "2 2"].
Proof. split; vm_compute; reflexivity. Qed.

(** ** Decimal numbers *)

Lemma string_of_uint_digits (d : Decimal.uint) :
  all_digits (NilEmpty.string_of_uint d) = true.
Proof. induction d; simpl; done. Qed.

Lemma of_uint_acc_le (d : Decimal.uint) (acc : positive) :
  (acc <= Pos.of_uint_acc d acc)%positive.
Proof.
  revert acc. induction d; intros acc; cbn [Pos.of_uint_acc]; [lia|..];
    (etrans; [|apply IHd]); lia.
Qed.

Ltac digit_step IH acc :=
  unfold ParseUint_loop; fold ParseUint_loop;
  match goal with
  | |- context [digit_of ?c] =>
    let v := eval vm_compute in (digit_of c) in change (digit_of c) with v
  end;
  cbv iota beta;
  match goal with
  | H : Z.pos (Pos.of_uint_acc ?d ?a) < _ |- context [Z.leb ?m ?n] =>
    pose proof (of_uint_acc_le d a);
    destruct (Z.leb_spec m n); [lia|];
    replace n with (Z.pos a) by lia; by apply IH
  end.

Lemma ParseUint_loop_acc (d : Decimal.uint) (acc : positive) :
  Z.pos (Pos.of_uint_acc d acc) < 2 ^ 64 →
  ParseUint_loop (NilEmpty.string_of_uint d) (Z.pos acc)
  = inr (Z.pos (Pos.of_uint_acc d acc)).
Proof.
  revert acc.
  induction d; intros acc Hlt; cbn [NilEmpty.string_of_uint Pos.of_uint_acc] in *;
    [reflexivity|..]; digit_step IHd acc.
Qed.

Lemma ParseUint_loop_zero (d : Decimal.uint) :
  Z.of_N (Pos.of_uint d) < 2 ^ 64 →
  ParseUint_loop (NilEmpty.string_of_uint d) 0 = inr (Z.of_N (Pos.of_uint d)).
Proof.
  induction d; intros Hlt; cbn [NilEmpty.string_of_uint Pos.of_uint] in *;
    [reflexivity | exact (IHd Hlt) | exact (ParseUint_loop_acc d _ Hlt)..].
Qed.

Lemma string_of_uint_nonempty (d : Decimal.uint) :
  d ≠ Decimal.Nil → ∃ b r, NilEmpty.string_of_uint d = String b r.
Proof. destruct d; [done|..]; intros _; simpl; eauto. Qed.

Lemma abs_digits_nonempty (v : Z) : ∃ b r, abs_digits v = String b r.
Proof.
  unfold abs_digits. apply string_of_uint_nonempty.
  destruct (Z.abs_N v); [done|]. apply DecimalPos.Unsigned.to_uint_nonnil.
Qed.

Lemma abs_digits_digits (v : Z) : all_digits (abs_digits v) = true.
Proof. apply string_of_uint_digits. Qed.

Lemma ParseUint_abs_digits (v : Z) :
  Z.abs v < 2 ^ 64 → ParseUint (abs_digits v) = inr (Z.abs v).
Proof.
  intros Hlt. destruct (abs_digits_nonempty v) as (b & r & Hs).
  unfold ParseUint. rewrite Hs, <- Hs. unfold abs_digits.
  assert (Z.of_N (Pos.of_uint (N.to_uint (Z.abs_N v))) = Z.abs v) as Hval.
  { change (Pos.of_uint ?d) with (N.of_uint d).
    rewrite DecimalN.Unsigned.of_to. apply N2Z.inj_abs_N. }
  rewrite ParseUint_loop_zero; rewrite Hval; done.
Qed.

Lemma fmt_d_sign (v : Z) :
  fmt_d v = if v <? 0 then String "-" (abs_digits v) else abs_digits v.
Proof.
  unfold fmt_d, abs_digits. destruct v as [|p|p]; [reflexivity|..]; simpl;
    pose proof (DecimalPos.Unsigned.to_uint_nonnil p);
    unfold NilZero.string_of_uint; by destruct (Pos.to_uint p).
Qed.

Lemma isDigit_code (b : ascii) : isDigit b = true → 48 <= code b <= 57.
Proof.
  unfold isDigit, digit_of.
  destruct (Z.leb_spec 48 (code b)), (Z.leb_spec (code b) 57); simpl; (done || lia).
Qed.

Lemma ParseInt_fmt_d (v : Z) : int64 v → ParseInt (fmt_d v) = inr v.
Proof.
  unfold int64, MinInt64, MaxInt64. intros Hv. rewrite fmt_d_sign.
  destruct (Z.ltb_spec v 0) as [Hneg|Hpos].
  - unfold ParseInt. change (code "-") with 45. cbn [Z.eqb Pos.eqb orb negb andb].
    rewrite ParseUint_abs_digits by lia.
    destruct (Z.ltb_spec (2 ^ 63) (Z.abs v)); [lia|]. f_equal. lia.
  - destruct (abs_digits_nonempty v) as (b & r & Hs).
    pose proof (abs_digits_digits v) as Hd. rewrite Hs in Hd. simpl in Hd.
    apply andb_true_iff in Hd as [Hb%isDigit_code _].
    unfold ParseInt. rewrite Hs.
    destruct (Z.eqb_spec (code b) 45); [lia|].
    destruct (Z.eqb_spec (code b) 43); [lia|]. cbn [orb negb andb].
    rewrite <- Hs, ParseUint_abs_digits by lia.
    destruct (Z.leb_spec (2 ^ 63) (Z.abs v)); [lia|]. f_equal. lia.
Qed.

(** ** Scanning what [%d] prints *)

Lemma skipRunes_stop sp1 sp2 sp3 (b : ascii) (r : string) :
  sp1 b = false → (∀ b2, sp2 b b2 = false) → (∀ b2 b3, sp3 b b2 b3 = false) →
  skipRunes sp1 sp2 sp3 (String b r) = String b r.
Proof.
  intros H1 H2 H3. simpl. rewrite H1.
  destruct r as [|b2 r]; [done|]. rewrite H2.
  destruct r as [|b3 r]; [done|]. by rewrite H3.
Qed.

Lemma numberStart_code (b : ascii) : numberStart b = true → 45 <= code b <= 57.
Proof.
  unfold numberStart. intros [H%Z.eqb_eq|H%isDigit_code]%orb_true_iff; lia.
Qed.

Lemma numberStart_not_space (b : ascii) :
  numberStart b = true →
  asciiSpace b = false ∧ (∀ b2, space2 b b2 = false) ∧ (∀ b2 b3, space3 b b2 b3 = false).
Proof.
  intros H%numberStart_code. unfold asciiSpace, space2, space3.
  destruct (Z.leb_spec (code b) 13); [lia|].
  destruct (Z.eqb_spec (code b) 32); [lia|].
  destruct (Z.eqb_spec (code b) 194); [lia|].
  destruct (Z.eqb_spec (code b) 225); [lia|].
  destruct (Z.eqb_spec (code b) 226); [lia|].
  destruct (Z.eqb_spec (code b) 227); [lia|].
  rewrite andb_false_r. done.
Qed.

Lemma skipBlanks_number (b : ascii) (r : string) :
  numberStart b = true → skipBlanks (String b r) = String b r.
Proof.
  intros (H1 & H2 & H3)%numberStart_not_space.
  apply skipRunes_stop; [by rewrite H1|done..].
Qed.

Lemma TrimLeftSpace_number (b : ascii) (r : string) :
  numberStart b = true → TrimLeftSpace (String b r) = String b r.
Proof.
  intros (H1 & H2 & H3)%numberStart_not_space. by apply skipRunes_stop.
Qed.

Lemma fmt_d_start (v : Z) : ∃ b r, fmt_d v = String b r ∧ numberStart b = true.
Proof.
  rewrite fmt_d_sign. destruct (v <? 0).
  - eexists _, _. split; [reflexivity|done].
  - destruct (abs_digits_nonempty v) as (b & r & Hs).
    pose proof (abs_digits_digits v) as Hd. rewrite Hs in Hd. simpl in Hd.
    apply andb_true_iff in Hd as [Hb _].
    exists b, r. split; [done|]. unfold numberStart. by rewrite Hb, orb_true_r.
Qed.

Lemma acceptDigits_app (ds rest : string) :
  all_digits ds = true → tokenEnd rest = true → acceptDigits (ds +:+ rest) = (ds, rest).
Proof.
  intros Hds Hrest. induction ds as [|b ds IH].
  - destruct rest as [|b r]; [done|]. simpl in *. unfold isDigit in Hrest.
    by apply negb_true_iff in Hrest as ->.
  - simpl in Hds. apply andb_true_iff in Hds as [Hb Hds].
    rewrite app_String. cbn [acceptDigits]. unfold isDigit in Hb. rewrite Hb.
    by rewrite IH.
Qed.

Lemma scanInt_fmt_d (v : Z) (rest : string) :
  int64 v → tokenEnd rest = true → scanInt (fmt_d v +:+ rest) = inr (v, rest).
Proof.
  intros Hv Hrest. pose proof (ParseInt_fmt_d v Hv) as Hparse.
  destruct (fmt_d_start v) as (b & r & Hs & Hb).
  unfold scanInt, SkipSpace. rewrite Hs, app_String, skipBlanks_number by done.
  pose proof (numberStart_code b Hb).
  destruct (Z.eqb_spec (code b) 10); [lia|].
  destruct (Z.eqb_spec (code b) 43); [lia|]. cbn [orb].
  rewrite fmt_d_sign in Hs. rewrite fmt_d_sign in Hparse.
  destruct (abs_digits_nonempty v) as (d & ds & Hds).
  pose proof (abs_digits_digits v) as Hdig.
  destruct (v <? 0).
  - injection Hs as <- <-. change (code "-" =? 45) with true. cbv iota beta.
    rewrite acceptDigits_app by done.
    change ("-" +:+ abs_digits v) with (String "-" (abs_digits v)).
    rewrite Hparse, Hds. reflexivity.
  - rewrite Hds in Hs. injection Hs as <- <-.
    pose proof Hdig as Hd'. rewrite Hds in Hd'. simpl in Hd'.
    apply andb_true_iff in Hd' as [Hd'%isDigit_code _].
    destruct (Z.eqb_spec (code d) 45); [lia|]. cbv iota beta.
    rewrite <- app_String, <- Hds, acceptDigits_app by done.
    change ("" +:+ abs_digits v) with (abs_digits v).
    rewrite Hparse, Hds. reflexivity.
Qed.

Lemma tokenEnd_space (s : string) : tokenEnd (String " " s) = true.
Proof. reflexivity. Qed.

Lemma String_neq (b : ascii) (s : string) : s ≠ String b s.
Proof. induction s as [|c s IH]; [done|]. intros [= -> H]. by apply IH. Qed.

Lemma advanceSpace_number (v : Z) :
  advanceSpace (String " " (fmt_d v)) = inr (fmt_d v).
Proof.
  destruct (fmt_d_start v) as (b & r & -> & Hb).
  unfold advanceSpace. change (code " " =? 10) with false. cbv iota.
  assert (skipBlanks (String " " (String b r)) = String b r) as ->.
  { etrans; [|apply (skipBlanks_number b r Hb)]. reflexivity. }
  destruct (String.eqb_spec (String b r) (String " " (String b r))) as [Heq|_]; [|done].
  by apply String_neq in Heq.
Qed.

Lemma Fscanf_cell_line (cell cell0 : Cell) :
  Cell_ok cell → Fscanf (cell_line cell) cell0 = (2%nat, None, cell).
Proof.
  intros [Hx Hy]. unfold Fscanf, cell_line.
  change (fmt_d (x cell) +:+ " " +:+ fmt_d (y cell))
    with (fmt_d (x cell) +:+ String " " (fmt_d (y cell))).
  rewrite scanInt_fmt_d, advanceSpace_number by done.
  rewrite <- (app_nil_r (fmt_d (y cell))), scanInt_fmt_d by done.
  by destruct cell.
Qed.

(** ** Lines *)

Lemma rev_app_app (s t u : string) :
  String.rev_app (s +:+ t) u = String.rev_app t (String.rev_app s u).
Proof. revert u. induction s as [|b s IH]; intros u; [done|]. rewrite app_String. apply IH. Qed.

Lemma rev_app_rev_app (s t u : string) :
  String.rev_app (String.rev_app s t) u = String.rev_app t (s +:+ u).
Proof.
  revert t u. induction s as [|b s IH]; intros t u; [done|].
  cbn [String.rev_app]. rewrite IH. reflexivity.
Qed.

Lemma rev_snoc (s : string) (b : ascii) :
  String.rev (s +:+ String b "") = String b (String.rev s).
Proof. unfold String.rev. by rewrite rev_app_app. Qed.

Lemma rev_cons_rev (s : string) (b : ascii) :
  String.rev (String b (String.rev s)) = s +:+ String b "".
Proof. unfold String.rev. cbn [String.rev_app]. by rewrite rev_app_rev_app. Qed.

Lemma all_digits_end (s : string) :
  all_digits s = true → s ≠ "" → endsWithDigit s.
Proof.
  induction s as [|b s IH]; [done|]. intros [Hb Hs]%andb_true_iff _.
  destruct s as [|c s].
  - by exists "", b.
  - destruct IH as (p & d & Heq & Hd); [done..|].
    exists (String b p), d. by rewrite app_String, <- Heq.
Qed.

Lemma endsWithDigit_app (s t : string) : endsWithDigit t → endsWithDigit (s +:+ t).
Proof.
  intros (p & d & -> & Hd). exists (s +:+ p), d. by rewrite app_assoc.
Qed.

Lemma fmt_d_end (v : Z) : endsWithDigit (fmt_d v).
Proof.
  rewrite fmt_d_sign.
  assert (endsWithDigit (abs_digits v)) as Hend.
  { apply all_digits_end; [apply abs_digits_digits|].
    destruct (abs_digits_nonempty v) as (b & r & ->). done. }
  destruct (v <? 0); [|done]. by apply (endsWithDigit_app (String "-" "")).
Qed.

Lemma cell_line_end (cell : Cell) : endsWithDigit (cell_line cell).
Proof. unfold cell_line. do 2 apply endsWithDigit_app. apply fmt_d_end. Qed.

Lemma cell_line_start (cell : Cell) :
  ∃ b r, cell_line cell = String b r ∧ numberStart b = true.
Proof.
  unfold cell_line. destruct (fmt_d_start (x cell)) as (b & r & -> & Hb).
  rewrite app_String. eauto.
Qed.

Lemma TrimRightSpace_digit (s : string) : endsWithDigit s → TrimRightSpace s = s.
Proof.
  intros (p & d & -> & Hd%isDigit_code). unfold TrimRightSpace.
  rewrite rev_snoc, skipRunes_stop; [apply rev_cons_rev|..].
  - unfold asciiSpace.
    destruct (Z.leb_spec (code d) 13); [lia|].
    destruct (Z.eqb_spec (code d) 32); [lia|]. by rewrite andb_false_r.
  - intros b2. unfold space2.
    destruct (Z.eqb_spec (code d) 133); [lia|].
    destruct (Z.eqb_spec (code d) 160); [lia|]. by rewrite andb_false_r.
  - intros b2 b3. unfold space3.
    destruct (Z.eqb_spec (code d) 128); [lia|].
    destruct (Z.leb_spec 128 (code d)); [lia|].
    destruct (Z.eqb_spec (code d) 168); [lia|].
    destruct (Z.eqb_spec (code d) 169); [lia|].
    destruct (Z.eqb_spec (code d) 175); [lia|].
    destruct (Z.eqb_spec (code d) 159); [lia|].
    by rewrite !andb_false_r.
Qed.

Lemma TrimSpace_cell_line (cell : Cell) : TrimSpace (cell_line cell) = cell_line cell.
Proof.
  unfold TrimSpace. destruct (cell_line_start cell) as (b & r & Hs & Hb).
  rewrite Hs, TrimLeftSpace_number, <- Hs by done.
  apply TrimRightSpace_digit, cell_line_end.
Qed.

Lemma dropCR_digit (s : string) : endsWithDigit s → dropCR s = s.
Proof.
  intros (p & d & -> & Hd%isDigit_code). unfold dropCR. rewrite rev_snoc.
  destruct (Z.eqb_spec (code d) 13); [lia|done].
Qed.

Lemma isComment_cell_line (cell : Cell) : HasPrefix (cell_line cell) "#" = false.
Proof.
  destruct (cell_line_start cell) as (b & r & -> & Hb%numberStart_code).
  unfold HasPrefix. cbn [String.prefix].
  destruct (ascii_dec "#" b) as [<-|_]; [|done]. change (code "#") with 35 in Hb. lia.
Qed.

(** ** Reading back what [printCells] writes *)

Lemma parseLoop_cell_lines (l : list Cell) (cells : Cells) (headerFound : bool) :
  Forall Cell_ok l →
  parseLoop (map cell_line l) cells headerFound = inr (list_to_set l ∪ cells, headerFound).
Proof.
  intros Hl. revert cells. induction Hl as [|c l Hc _ IH]; intros cells.
  - simpl. do 2 f_equal. set_solver.
  - cbn [map parseLoop]. rewrite TrimSpace_cell_line, isComment_cell_line.
    rewrite Fscanf_cell_line by done. cbn [Nat.ltb Nat.leb orb].
    rewrite IH. unfold addCell. do 2 f_equal. set_solver.
Qed.

Lemma no_newline_app (s t : string) :
  no_newline (s +:+ t) = no_newline s && no_newline t.
Proof.
  induction s as [|b s IH]; [done|]. rewrite app_String. cbn [no_newline].
  by rewrite IH, andb_assoc.
Qed.

Lemma all_digits_no_newline (s : string) : all_digits s = true → no_newline s = true.
Proof.
  induction s as [|b s IH]; [done|]. intros [Hb%isDigit_code Hs]%andb_true_iff.
  cbn [no_newline]. rewrite IH by done.
  destruct (Z.eqb_spec (code b) 10); [lia|done].
Qed.

Lemma fmt_d_no_newline (v : Z) : no_newline (fmt_d v) = true.
Proof.
  rewrite fmt_d_sign. pose proof (all_digits_no_newline _ (abs_digits_digits v)) as H.
  destruct (v <? 0); [|done]. cbn [no_newline]. by rewrite H.
Qed.

Lemma cell_line_no_newline (cell : Cell) : no_newline (cell_line cell) = true.
Proof.
  unfold cell_line. rewrite !no_newline_app, !fmt_d_no_newline. reflexivity.
Qed.

(** The text that [%d] prints for an int64 has at most 20 bytes. *)
Lemma length_app (s t : string) :
  String.length (s +:+ t) = (String.length s + String.length t)%nat.
Proof. induction s as [|b s IH]; [done|]. rewrite app_String. simpl. by rewrite IH. Qed.

Lemma of_uint_acc_pow (d : Decimal.uint) (acc : positive) :
  Z.pos acc * 10 ^ Z.of_nat (String.length (NilEmpty.string_of_uint d))
  <= Z.pos (Pos.of_uint_acc d acc).
Proof.
  revert acc.
  induction d; intros acc; cbn [NilEmpty.string_of_uint Pos.of_uint_acc String.length];
    [simpl; lia|..];
    (rewrite Nat2Z.inj_succ, Z.pow_succ_r by lia;
     etrans; [|apply IHd];
     assert (0 < 10 ^ Z.of_nat (String.length (NilEmpty.string_of_uint d)))
       by (apply Z.pow_pos_nonneg; lia);
     nia).
Qed.

Lemma to_uint_nzhead (p : positive) : Decimal.nzhead (Pos.to_uint p) = Pos.to_uint p.
Proof.
  pose proof (DecimalPos.Unsigned.to_of (Pos.to_uint p)) as Hto.
  rewrite DecimalPos.Unsigned.of_to in Hto. cbn [N.to_uint] in Hto.
  unfold Decimal.unorm in Hto.
  destruct (Decimal.nzhead (Pos.to_uint p)) eqn:Hnz; try done.
  by apply DecimalPos.Unsigned.to_uint_nonzero in Hto.
Qed.

Lemma nzhead_pow (d : Decimal.uint) :
  Decimal.nzhead d = d → d ≠ Decimal.Nil →
  10 ^ (Z.of_nat (String.length (NilEmpty.string_of_uint d)) - 1) <= Z.of_N (Pos.of_uint d).
Proof.
  intros Hnz Hd. destruct d as [|d|d|d|d|d|d|d|d|d|d]; [done|..].
  1: { exfalso. pose proof (DecimalFacts.nb_digits_nzhead d) as Hle.
       cbn [Decimal.nzhead] in Hnz. rewrite Hnz in Hle. simpl in Hle. lia. }
  all: cbn [NilEmpty.string_of_uint Pos.of_uint String.length].
  all: rewrite Nat2Z.inj_succ.
  all: match goal with
       | |- _ <= Z.of_N (N.pos (Pos.of_uint_acc ?l ?k)) =>
         pose proof (of_uint_acc_pow l k);
         replace (Z.succ (Z.of_nat (String.length (NilEmpty.string_of_uint l))) - 1)
           with (Z.of_nat (String.length (NilEmpty.string_of_uint l))) by lia;
         assert (0 < 10 ^ Z.of_nat (String.length (NilEmpty.string_of_uint l)))
           by (apply Z.pow_pos_nonneg; lia)
       end.
  all: cbn [Z.of_N]; nia.
Qed.

Lemma abs_digits_length (v : Z) :
  Z.abs v < 2 ^ 64 → (String.length (abs_digits v) ≤ 20)%nat.
Proof.
  intros Hv. unfold abs_digits. destruct (Z.abs_N v) as [|p] eqn:Hp; [simpl; lia|].
  cbn [N.to_uint].
  pose proof (nzhead_pow (Pos.to_uint p) (to_uint_nzhead p)
                (DecimalPos.Unsigned.to_uint_nonnil p)) as Hpow.
  rewrite DecimalPos.Unsigned.of_to in Hpow.
  assert (Z.of_N (N.pos p) = Z.abs v) as Hval by (rewrite <- Hp; apply N2Z.inj_abs_N).
  rewrite Hval in Hpow.
  destruct (le_lt_dec (String.length (NilEmpty.string_of_uint (Pos.to_uint p))) 20)
    as [|Hlong]; [done|exfalso].
  assert (10 ^ 20 <= 10 ^ (Z.of_nat (String.length (NilEmpty.string_of_uint (Pos.to_uint p)))
                           - 1)) by (apply Z.pow_le_mono_r; lia).
  lia.
Qed.

Lemma fmt_d_length (v : Z) : int64 v → (String.length (fmt_d v) ≤ 21)%nat.
Proof.
  unfold int64, MinInt64, MaxInt64. intros Hv. rewrite fmt_d_sign.
  pose proof (abs_digits_length v). destruct (v <? 0); simpl; lia.
Qed.

Lemma cell_line_fits (cell : Cell) : Cell_ok cell → tooLong (cell_line cell) = false.
Proof.
  intros [Hx%fmt_d_length Hy%fmt_d_length]. unfold tooLong, cell_line, MaxScanTokenSize.
  rewrite !length_app. simpl. apply Z.leb_gt. lia.
Qed.

Lemma splitLines_line (line rest : string) :
  no_newline line = true →
  splitLines (line +:+ String newline rest) = line :: splitLines rest.
Proof.
  induction line as [|b line IH]; intros Hline; [done|].
  cbn [no_newline] in Hline. apply andb_true_iff in Hline as [Hb Hline].
  rewrite app_String. cbn [splitLines].
  apply negb_true_iff in Hb. by rewrite Hb, IH.
Qed.

Lemma scanLines_line (line rest : string) :
  no_newline line = true → tooLong line = false →
  scanLines (line +:+ String newline rest) = dropCR line :: scanLines rest.
Proof.
  intros Hline Hfit. unfold scanLines. rewrite splitLines_line by done.
  cbn [scanTokens]. by rewrite Hfit.
Qed.

Lemma scanLines_cell_lines (l : list Cell) :
  Forall Cell_ok l → scanLines (unlines (map cell_line l)) = map cell_line l.
Proof.
  induction 1 as [|c l Hc _ IH]; [done|].
  cbn [map unlines].
  rewrite scanLines_line by (apply cell_line_no_newline || by apply cell_line_fits).
  by rewrite dropCR_digit, IH by apply cell_line_end.
Qed.

Lemma printLoop_buffer_text (l : list Cell) (text : string) :
  printLoop (mkWriter text None) l
  = (mkWriter (text +:+ unlines (map cell_line l)) None, None).
Proof.
  revert text. induction l as [|c l IH]; intros text.
  - cbn [map unlines]. by rewrite app_nil_r.
  - cbn [printLoop map unlines]. unfold Fprintf. cbn [room written].
    rewrite IH. unfold cell_line. by rewrite !app_assoc.
Qed.

Lemma printCells_buffer_text (o : MapOrder) (cells : Cells) :
  written (printCells o buffer cells).1
  = unlines (FILE_HEADER :: "" :: map cell_line (o cells)).
Proof.
  unfold printCells, buffer, Fprintf. cbn [room written].
  rewrite printLoop_buffer_text. cbn [fst written unlines].
  by rewrite !app_assoc.
Qed.

(** The lines of the text that [printCells] writes are the header, an
    empty line, and one line for each cell; without the empty line they are
    read back as the set written. *)
Lemma print_parse_lines (o : MapOrder) (cells : Cells) :
  range_order o → (∀ c, c ∈ cells → Cell_ok c) →
  scanLines (written (printCells o buffer cells).1)
  = FILE_HEADER :: "" :: map cell_line (o cells) ∧
  parseLoop (FILE_HEADER :: map cell_line (o cells)) ∅ false = inr (cells, true).
Proof.
  intros Ho Hok.
  assert (Forall Cell_ok (o cells)) as Hall.
  { apply Forall_forall. intros c Hc. apply Hok.
    by apply (range_order_elem_of o) in Hc. }
  split.
  - rewrite printCells_buffer_text.
    change (unlines (FILE_HEADER :: "" :: ?l))
      with (FILE_HEADER +:+ String newline (String newline (unlines l))).
    by rewrite scanLines_header, scanLines_cell_lines.
  - change (parseLoop (FILE_HEADER :: ?l) ∅ false) with (parseLoop l ∅ true).
    rewrite parseLoop_cell_lines.
    + do 2 f_equal. apply set_eq. intros c.
      rewrite elem_of_union, elem_of_list_to_set, (range_order_elem_of o) by done.
      set_solver.
    + apply Forall_forall. intros c Hc. apply Hok.
      by apply (range_order_elem_of o) in Hc.
Qed.

Lemma scanLines_unlines_header (l : list Cell) :
  Forall Cell_ok l →
  scanLines (unlines (FILE_HEADER :: map cell_line l)) = FILE_HEADER :: map cell_line l.
Proof.
  intros Hl.
  change (unlines (FILE_HEADER :: ?ls)) with (FILE_HEADER +:+ String newline (unlines ls)).
  rewrite scanLines_line by reflexivity.
  by rewrite scanLines_cell_lines.
Qed.

(** C4, as amended.  The second line of the text that [printCells] writes
    for a set of int64 cells is empty; the text without that line is read
    back by [parseCells] as the set written, whatever the order of the
    lines. *)
Theorem print_parse_roundtrip (o : MapOrder) (cells : Cells) (fs : FileSystem)
    (inputFile : string) :
  range_order o → (∀ c, c ∈ cells → Cell_ok c) →
  let lines := scanLines (written (printCells o buffer cells).1) in
  fs !! inputFile = Some (unlines (delete 1%nat lines)) →
  lines !! 1%nat = Some "" ∧ parseCells fs inputFile = inr cells.
Proof.
  intros Ho Hok lines Hfs. subst lines.
  destruct (print_parse_lines o cells Ho Hok) as [Hlines Hparse].
  rewrite Hlines in Hfs |- *. split; [done|].
  unfold parseCells. rewrite Hfs.
  change (delete 1%nat (FILE_HEADER :: "" :: ?l)) with (FILE_HEADER :: l).
  rewrite scanLines_unlines_header, Hparse; [done|].
  apply Forall_forall. intros c Hc. apply Hok.
  by apply (range_order_elem_of o) in Hc.
Qed.

Lemma print_parse_roundtrip_witness :
  let lines := scanLines (written (printCells reverse_order buffer blinker).1) in
  lines !! 1%nat = Some "" ∧
  parseCells {[ "out.life" := unlines (delete 1%nat lines) ]} "out.life" = inr blinker.
Proof.
  apply (print_parse_roundtrip reverse_order blinker).
  - apply range_order_reverse.
  - intros c Hc. unfold blinker in Hc.
    apply elem_of_union in Hc as [Hc|Hc%elem_of_singleton];
      [apply elem_of_union in Hc as [Hc%elem_of_singleton|Hc%elem_of_singleton]|];
      subst c; unfold Cell_ok, int64, MinInt64, MaxInt64; simpl; lia.
  - reflexivity.
Defined.

(** C4, as stated, fails: the text written for the set of the one cell
    (1, 2) is not read back; [parseCells] rejects it at its empty second
    line. *)
Lemma print_parse_counterexample :
  let text := written (printCells elements_order buffer {[ mkCell 1 2 ]}).1 in
  text = unlines [FILE_HEADER; ""; "1 2"] ∧
  parseCells {[ "out.life" := text ]} "out.life" = inl (ErrLine 1 (Some ErrEOF)) ∧
  parseCells {[ "out.life" := text ]} "out.life" ≠ inr {[ mkCell 1 2 ]}.
Proof. repeat split; try (vm_compute; reflexivity). vm_compute. discriminate. Qed.

(** * Further properties of the simulation *)

(** X1.  The [uint8] counter of [numAliveNeighbors] never wraps: the value
    returned is the number of cells sent by [neighbors] that are in the
    map, a number between 0 and 8. *)
Theorem numAliveNeighbors_members (cells : Cells) (c : Cell) :
  numAliveNeighbors cells c = Z.of_nat (length (filter (λ d, d ∈ cells) (neighbors c))) ∧
  0 <= numAliveNeighbors cells c <= 8.
Proof. split; [apply numAliveNeighbors_count|apply numAliveNeighbors_bound]. Qed.

(** X2.  Among int64 cells being a neighbour is symmetric, and no cell is
    a neighbour of itself. *)
Theorem neighbors_symmetric (c d : Cell) :
  Cell_ok c → Cell_ok d →
  (c ∉ neighbors c) ∧ (d ∈ neighbors c ↔ c ∈ neighbors d).
Proof.
  intros Hc Hd. rewrite !elem_of_neighbors_near by done. split.
  - intros (_ & Hne & _). done.
  - split; intros (_ & Hne & ? & ?); (split; [done|]); (split; [congruence|lia]).
Qed.

Lemma neighbors_symmetric_witness :
  (mkCell MaxInt64 0 ∉ neighbors (mkCell MaxInt64 0)) ∧
  (mkCell (MaxInt64 - 1) 1 ∈ neighbors (mkCell MaxInt64 0)
   ↔ mkCell MaxInt64 0 ∈ neighbors (mkCell (MaxInt64 - 1) 1)).
Proof.
  apply (neighbors_symmetric (mkCell MaxInt64 0) (mkCell (MaxInt64 - 1) 1));
    unfold Cell_ok, int64, MinInt64, MaxInt64; simpl; lia.
Defined.

(** X3.  An int64 cell has 8 neighbours, 5 when one of its coordinates is
    an int64 extreme, and 3 when both are. *)
Theorem neighbors_count (c : Cell) :
  Cell_ok c →
  let span (z : Z) : nat := if (z =? MinInt64) || (z =? MaxInt64) then 2%nat else 3%nat in
  length (neighbors c) = (span (x c) * span (y c) - 1)%nat.
Proof.
  destruct c as [cx cy]. unfold Cell_ok. cbn [x y].
  intros [Hx Hy]. pose proof Hx as Hx'. pose proof Hy as Hy'.
  unfold int64 in Hx', Hy'. cbv zeta.
  destruct (Z.eqb_spec cx MinInt64), (Z.eqb_spec cx MaxInt64),
    (Z.eqb_spec cy MinInt64), (Z.eqb_spec cy MaxInt64);
    try (unfold MinInt64, MaxInt64 in *; lia);
    neighbors_cases cx cy Hx Hy; try lia; reflexivity.
Qed.

Lemma neighbors_count_witness :
  length (neighbors (mkCell MinInt64 MaxInt64)) = 3%nat.
Proof.
  apply (neighbors_count (mkCell MinInt64 MaxInt64)).
  unfold Cell_ok, int64, MinInt64, MaxInt64. simpl. lia.
Defined.

(** X4.  [deadNeighbors] sends every dead cell that is a neighbour of a
    live cell, sends each of them once, and sends nothing else, whatever
    the orders of its two map loops. *)
Theorem deadNeighbors_exact (scan emit : MapOrder) (cells : Cells) :
  range_order scan → range_order emit →
  NoDup (deadNeighbors scan emit cells) ∧
  ∀ d, d ∈ deadNeighbors scan emit cells
       ↔ (d ∉ cells) ∧ (∃ c, c ∈ cells ∧ d ∈ neighbors c).
Proof.
  intros Hs He. split.
  - unfold deadNeighbors. rewrite (He _). apply NoDup_elements.
  - intros d. by apply elem_of_deadNeighbors.
Qed.

Lemma deadNeighbors_exact_witness :
  NoDup (deadNeighbors reverse_order elements_order blinker) ∧
  ∀ d, d ∈ deadNeighbors reverse_order elements_order blinker
       ↔ (d ∉ blinker) ∧ (∃ c, c ∈ blinker ∧ d ∈ neighbors c).
Proof.
  apply (deadNeighbors_exact reverse_order elements_order blinker).
  - apply range_order_reverse.
  - apply range_order_elements.
Defined.

(** X5.  Adding a cell that is absent and removing it again gives the map
    back, and so does removing a cell that is present and adding it
    again; the size moves by one each time.  Removing an absent cell and
    adding a present one change nothing. *)
Theorem addCell_removeCell (cells : Cells) (cell : Cell) :
  (cell ∉ cells →
   hasCell (addCell cells cell) cell = true ∧
   removeCell (addCell cells cell) cell = cells ∧
   removeCell cells cell = cells ∧
   size (addCell cells cell) = S (size cells)) ∧
  (cell ∈ cells →
   hasCell (removeCell cells cell) cell = false ∧
   addCell (removeCell cells cell) cell = cells ∧
   addCell cells cell = cells ∧
   S (size (removeCell cells cell)) = size cells).
Proof.
  unfold hasCell, addCell, removeCell. split; intros Hc.
  - split; [apply bool_decide_eq_true_2; set_solver|].
    split; [set_solver|]. split; [set_solver|].
    rewrite size_union, size_singleton by set_solver. done.
  - split; [apply bool_decide_eq_false_2; set_solver|].
    split.
    { apply set_eq. intros d. rewrite elem_of_union, elem_of_difference, elem_of_singleton.
      destruct (decide (d = cell)) as [->|]; tauto. }
    split; [set_solver|].
    rewrite size_difference, size_singleton by set_solver.
    assert (size cells ≠ 0%nat); [|lia].
    intros Hsz%size_empty_iff. set_solver.
Qed.

Lemma addCell_removeCell_witness :
  (hasCell (addCell blinker (mkCell 7 7)) (mkCell 7 7) = true ∧
   removeCell (addCell blinker (mkCell 7 7)) (mkCell 7 7) = blinker ∧
   removeCell blinker (mkCell 7 7) = blinker ∧
   size (addCell blinker (mkCell 7 7)) = S (size blinker)) ∧
  (hasCell (removeCell blinker (mkCell 1 0)) (mkCell 1 0) = false ∧
   addCell (removeCell blinker (mkCell 1 0)) (mkCell 1 0) = blinker ∧
   addCell blinker (mkCell 1 0) = blinker ∧
   S (size (removeCell blinker (mkCell 1 0))) = size blinker).
Proof.
  split.
  - apply (addCell_removeCell blinker (mkCell 7 7)). vm_compute. discriminate.
  - apply (addCell_removeCell blinker (mkCell 1 0)). vm_compute. reflexivity.
Defined.

Lemma range_order_to_set (o : MapOrder) (m : Cells) :
  range_order o → list_to_set (o m) = m.
Proof.
  intros Ho. apply set_eq. intros c.
  by rewrite elem_of_list_to_set, (range_order_elem_of o).
Qed.

Lemma foldl_removeCell_pair (l : list Cell) (st : Cells * list Event) :
  foldl (λ st cell, (removeCell st.1 cell, st.2 ++ [EvDying cell])) st l
  = (st.1 ∖ list_to_set l, st.2 ++ map EvDying l).
Proof.
  revert st. induction l as [|c l IH]; intros [cells log]; simpl.
  - f_equal; [set_solver|by rewrite List.app_nil_r].
  - rewrite IH. simpl. unfold removeCell. f_equal; [set_solver|].
    by rewrite <- List.app_assoc.
Qed.

Lemma foldl_addCell_pair (l : list Cell) (st : Cells * list Event) :
  foldl (λ st cell, (addCell st.1 cell, st.2 ++ [EvBorn cell])) st l
  = (st.1 ∪ list_to_set l, st.2 ++ map EvBorn l).
Proof.
  revert st. induction l as [|c l IH]; intros [cells log]; simpl.
  - f_equal; [set_solver|by rewrite List.app_nil_r].
  - rewrite IH. simpl. unfold addCell. f_equal; [set_solver|].
    by rewrite <- List.app_assoc.
Qed.

(** The state after one iteration, with the two maps of changes. *)
Lemma step_unfold (o : StepOrder) (iteration : Z) (cells : Cells) (log : list Event) :
  step_order o →
  step o iteration (cells, log)
  = ((cells ∖ dyingCells_of o cells) ∪ birthedCells_of o cells,
     log ++ [EvIteration iteration]
         ++ map EvDying (ord_dying o (dyingCells_of o cells))
         ++ map EvBorn (ord_birthed o (birthedCells_of o cells))).
Proof.
  intros (_ & _ & _ & Hd & Hb). unfold step.
  rewrite foldl_removeCell_pair, foldl_addCell_pair. cbn [fst snd].
  rewrite !range_order_to_set by done. by rewrite <- !List.app_assoc.
Qed.

(** X6.  In one iteration the cells that die are cells of the map, the
    cells that are born are not; the map after the iteration is the old
    one without the dying cells and with the born ones, in either order of
    the two updates, and its size is the old size minus the deaths plus the
    births. *)
Theorem step_changes (o : StepOrder) (iteration : Z) (cells : Cells) (log : list Event) :
  step_order o →
  dyingCells_of o cells ⊆ cells ∧
  birthedCells_of o cells ## cells ∧
  (step o iteration (cells, log)).1
  = (cells ∖ dyingCells_of o cells) ∪ birthedCells_of o cells ∧
  (cells ∖ dyingCells_of o cells) ∪ birthedCells_of o cells
  = (cells ∪ birthedCells_of o cells) ∖ dyingCells_of o cells ∧
  (size (step o iteration (cells, log)).1 + size (dyingCells_of o cells)
   = size cells + size (birthedCells_of o cells))%nat.
Proof.
  intros Ho.
  assert (dyingCells_of o cells ⊆ cells) as Hsub.
  { intros c. rewrite elem_of_dyingCells by done. tauto. }
  assert (birthedCells_of o cells ## cells) as Hdisj.
  { intros c. rewrite elem_of_birthedCells by done. tauto. }
  rewrite step_unfold by done. cbn [fst].
  repeat split; try done.
  - set_solver.
  - rewrite size_union by set_solver.
    rewrite size_difference by done.
    pose proof (subseteq_size _ _ Hsub). lia.
Qed.

Lemma step_changes_witness :
  dyingCells_of reverse_step blinker ⊆ blinker ∧
  birthedCells_of reverse_step blinker ## blinker ∧
  (step reverse_step 0 (blinker, [])).1
  = (blinker ∖ dyingCells_of reverse_step blinker) ∪ birthedCells_of reverse_step blinker ∧
  (blinker ∖ dyingCells_of reverse_step blinker) ∪ birthedCells_of reverse_step blinker
  = (blinker ∪ birthedCells_of reverse_step blinker) ∖ dyingCells_of reverse_step blinker ∧
  (size (step reverse_step 0 (blinker, [])).1 + size (dyingCells_of reverse_step blinker)
   = size blinker + size (birthedCells_of reverse_step blinker))%nat.
Proof.
  apply (step_changes reverse_step 0 blinker []).
  repeat split; (apply range_order_reverse || apply range_order_elements).
Defined.

(** X7.  One iteration appends to the log its header, then one line for
    each dying cell, then one line for each born cell, every such cell
    once. *)
Theorem step_log (o : StepOrder) (iteration : Z) (cells : Cells) (log : list Event) :
  step_order o →
  ∃ dying born,
    dying ≡ₚ elements (dyingCells_of o cells) ∧
    born ≡ₚ elements (birthedCells_of o cells) ∧
    (step o iteration (cells, log)).2
    = log ++ [EvIteration iteration] ++ map EvDying dying ++ map EvBorn born.
Proof.
  intros Ho. rewrite step_unfold by done.
  destruct Ho as (_ & _ & _ & Hd & Hb).
  eexists _, _. split; [apply Hd|]. split; [apply Hb|]. reflexivity.
Qed.

Lemma step_log_witness :
  ∃ dying born,
    dying ≡ₚ elements (dyingCells_of reverse_step blinker) ∧
    born ≡ₚ elements (birthedCells_of reverse_step blinker) ∧
    (step reverse_step 0 (blinker, [])).2
    = [] ++ [EvIteration 0] ++ map EvDying dying ++ map EvBorn born.
Proof.
  apply (step_log reverse_step 0 blinker []).
  repeat split; (apply range_order_reverse || apply range_order_elements).
Defined.

(** A property of the cells that every iteration keeps holds after the loop. *)
Lemma loop_fst_inv (P : Cells → Prop) (sched : nat → StepOrder) (l : list nat)
    (st : Cells * list Event) :
  schedule sched →
  (∀ o i st, step_order o → P st.1 → P (step o i st).1) →
  P st.1 → P (foldl (λ st i, step (sched i) (Z.of_nat i) st) st l).1.
Proof.
  intros Hs Hstep. revert st. induction l as [|i l IH]; intros st HP; simpl; [done|].
  apply IH. by apply Hstep.
Qed.

Lemma step_near (o : StepOrder) (i k : Z) (cells : Cells) (st : Cells * list Event) :
  step_order o →
  (∀ c, c ∈ st.1 → Cell_ok c ∧ ∃ a, a ∈ cells ∧ near k a c) →
  ∀ c, c ∈ (step o i st).1 → Cell_ok c ∧ ∃ a, a ∈ cells ∧ near (k + 1) a c.
Proof.
  intros Ho Hst c. rewrite elem_of_step by done.
  intros [[Hc _]|(_ & (b & Hb & Hcb) & _)].
  - destruct (Hst c Hc) as (Hok & a & Ha & Hnear). split; [done|].
    exists a. split; [done|]. unfold near in *. lia.
  - destruct (Hst b Hb) as (Hok & a & Ha & Hnear).
    apply elem_of_neighbors_near in Hcb as (Hcok & _ & Hx & Hy); [|done].
    split; [done|]. exists a. split; [done|]. unfold near in *. lia.
Qed.

Lemma loop_near (sched : nat → StepOrder) (cells : Cells) (l : list nat) (k : Z)
    (st : Cells * list Event) :
  schedule sched →
  (∀ c, c ∈ st.1 → Cell_ok c ∧ ∃ a, a ∈ cells ∧ near k a c) →
  ∀ c, c ∈ (foldl (λ st i, step (sched i) (Z.of_nat i) st) st l).1 →
       Cell_ok c ∧ ∃ a, a ∈ cells ∧ near (k + Z.of_nat (length l)) a c.
Proof.
  intros Hs. revert k st. induction l as [|i l IH]; intros k st Hst c; simpl foldl.
  - intros Hc. destruct (Hst c Hc) as (Hok & a & Ha & Hnear).
    split; [done|]. exists a. split; [done|]. simpl. by rewrite Z.add_0_r.
  - intros Hc. cbn [length]. rewrite Nat2Z.inj_succ.
    replace (k + Z.succ (Z.of_nat (length l))) with ((k + 1) + Z.of_nat (length l)) by lia.
    apply (IH (k + 1) (step (sched i) (Z.of_nat i) st)); [|done].
    by apply step_near.
Qed.

(** X8.  No coordinate ever wraps around.  When the initial cells have int64
    coordinates and [iterations] is not negative, every cell alive after the
    loop has int64 coordinates and lies, with the differences taken in the
    integers, at most [iterations] columns and [iterations] rows away from
    some initial cell. *)
Theorem simulate_near (sched : nat → StepOrder) (iterations : Z) (cells : Cells) :
  schedule sched → (∀ c, c ∈ cells → Cell_ok c) → 0 <= iterations →
  ∀ c, c ∈ (simulate sched iterations cells).1 →
       Cell_ok c ∧ ∃ a, a ∈ cells ∧ near iterations a c.
Proof.
  intros Hs Hok Hit c Hc. unfold simulate in Hc.
  apply (loop_near sched cells _ 0) in Hc; [|done|].
  - rewrite length_seq, Z2Nat.id, Z.add_0_l in Hc by done. exact Hc.
  - intros d Hd. split; [by apply Hok|]. exists d. split; [done|].
    unfold near. lia.
Qed.

Lemma step_empty (o : StepOrder) (i : Z) (st : Cells * list Event) :
  step_order o → st.1 = ∅ → (step o i st).1 = ∅.
Proof.
  intros Ho Hst. apply set_eq. intros c. rewrite elem_of_step, Hst by done.
  set_solver.
Qed.

(** X9.  The empty map stays empty, for every iteration count. *)
Theorem simulate_empty (sched : nat → StepOrder) (iterations : Z) :
  schedule sched → (simulate sched iterations ∅).1 = ∅.
Proof.
  intros Hs. unfold simulate.
  apply (loop_fst_inv (λ m, m = ∅)); [done| |done].
  intros o i st Ho Hst. by apply step_empty.
Qed.

Lemma simulate_empty_witness : (simulate reverse_sched 5 ∅).1 = ∅.
Proof. apply (simulate_empty reverse_sched 5). apply schedule_reverse. Defined.

(** The live neighbours of an int64 cell are cells of the map other than
    the cell itself, each counted once. *)
Lemma numAliveNeighbors_le_size (cells : Cells) (d : Cell) :
  Cell_ok d → numAliveNeighbors cells d <= Z.of_nat (size (cells ∖ {[d]})).
Proof.
  intros Hd. rewrite numAliveNeighbors_count. apply inj_le.
  unfold size, set_size. simpl. apply submseteq_length, NoDup_submseteq.
  - apply NoDup_filter, NoDup_neighbors, Hd.
  - intros c [Hc Hn]%list_elem_of_filter. apply elem_of_elements.
    apply elem_of_neighbors in Hn as (_ & Hne & _); [|done]. set_solver.
Qed.

Lemma step_few (o : StepOrder) (i : Z) (st : Cells * list Event) :
  step_order o → (∀ c, c ∈ st.1 → Cell_ok c) → (size st.1 < 3)%nat →
  (step o i st).1 = ∅.
Proof.
  intros Ho Hok Hsz. apply set_eq. intros d. rewrite elem_of_step by done.
  split; [|set_solver].
  intros [[Hd Hn]|(Hd & (a & Ha & Hda) & Hn)]; exfalso.
  - pose proof (numAliveNeighbors_le_size st.1 d (Hok d Hd)) as Hle.
    rewrite size_difference, size_singleton in Hle by set_solver. lia.
  - assert (Cell_ok d) as Hdok.
    { apply elem_of_neighbors in Hda; [tauto|by apply Hok]. }
    pose proof (numAliveNeighbors_le_size st.1 d Hdok) as Hle.
    pose proof (subseteq_size (st.1 ∖ {[d]}) st.1) as Hsub.
    assert (size (st.1 ∖ {[d]}) ≤ size st.1)%nat by (apply Hsub; set_solver).
    lia.
Qed.

(** X10.  A map of fewer than three cells is empty after the first
    iteration and stays so. *)
Theorem simulate_few (sched : nat → StepOrder) (iterations : Z) (cells : Cells) :
  schedule sched → (∀ c, c ∈ cells → Cell_ok c) → (size cells < 3)%nat →
  1 <= iterations → (simulate sched iterations cells).1 = ∅.
Proof.
  intros Hs Hok Hsz Hit. unfold simulate.
  destruct (Z.to_nat iterations) as [|n] eqn:Hn; [lia|].
  cbn [seq foldl].
  apply (loop_fst_inv (λ m, m = ∅)); [done| |].
  - intros o i st Ho Hst. by apply step_empty.
  - by apply step_few.
Qed.

Lemma simulate_few_witness :
  (simulate reverse_sched 4 {[ mkCell 5 5; mkCell 5 6 ]}).1 = ∅.
Proof.
  apply (simulate_few reverse_sched 4 {[ mkCell 5 5; mkCell 5 6 ]}).
  - apply schedule_reverse.
  - intros c [->%elem_of_singleton| ->%elem_of_singleton]%elem_of_union;
      unfold Cell_ok, int64, MinInt64, MaxInt64; simpl; lia.
  - vm_compute. lia.
  - lia.
Defined.

Lemma simulate_near_witness :
  mkCell 1 1 ∈ (simulate reverse_sched 3 blinker).1 ∧
  Cell_ok (mkCell 1 1) ∧ ∃ a, a ∈ blinker ∧ near 3 a (mkCell 1 1).
Proof.
  assert (mkCell 1 1 ∈ (simulate reverse_sched 3 blinker).1) as Hin
    by (vm_compute; reflexivity).
  split; [exact Hin|].
  apply (simulate_near reverse_sched 3 blinker); [| |lia|exact Hin].
  - apply schedule_reverse.
  - intros c Hc. unfold blinker in Hc.
    apply elem_of_union in Hc as [Hc|Hc%elem_of_singleton];
      [apply elem_of_union in Hc as [Hc%elem_of_singleton|Hc%elem_of_singleton]|];
      subst c; unfold Cell_ok, int64, MinInt64, MaxInt64; simpl; lia.
Defined.

(** The cells after the loop depend on how many iterations run, not on
    their numbers nor on the orders of the map loops. *)
Lemma loop_fst_length (sched sched' : nat → StepOrder) (l l' : list nat)
    (st st' : Cells * list Event) :
  schedule sched → schedule sched' → length l = length l' → st.1 = st'.1 →
  (foldl (λ st i, step (sched i) (Z.of_nat i) st) st l).1
  = (foldl (λ st i, step (sched' i) (Z.of_nat i) st) st' l').1.
Proof.
  intros Hs Hs'. revert l' st st'.
  induction l as [|i l IH]; intros [|i' l'] st st' Hlen Heq; simpl in *; try done.
  apply IH; [lia|]. by apply step_fst_indep.
Qed.

(** X11.  Running [a + b] iterations gives the cells that [b] iterations
    give from the cells that [a] iterations give. *)
Theorem simulate_add (sched sched1 sched2 : nat → StepOrder) (a b : Z) (cells : Cells) :
  schedule sched → schedule sched1 → schedule sched2 → 0 <= a → 0 <= b →
  (simulate sched (a + b) cells).1
  = (simulate sched2 b (simulate sched1 a cells).1).1.
Proof.
  intros Hs Hs1 Hs2 Ha Hb. unfold simulate.
  rewrite Z2Nat.inj_add, seq_app, foldl_app by done.
  apply loop_fst_length; [done..|by rewrite !length_seq|].
  by apply loop_fst_indep.
Qed.

Lemma simulate_add_witness :
  (simulate elements_sched (1 + 2) blinker).1
  = (simulate reverse_sched 2 (simulate elements_sched 1 blinker).1).1.
Proof.
  apply (simulate_add elements_sched elements_sched reverse_sched 1 2 blinker);
    (apply schedule_elements || apply schedule_reverse || lia).
Defined.

(** X12.  A map that one iteration leaves unchanged is left unchanged by
    any number of iterations. *)
Theorem simulate_still (o : StepOrder) (i : Z) (log : list Event)
    (sched : nat → StepOrder) (iterations : Z) (cells : Cells) :
  step_order o → (step o i (cells, log)).1 = cells → schedule sched →
  (simulate sched iterations cells).1 = cells.
Proof.
  intros Ho Hfix Hs. unfold simulate.
  apply (loop_fst_inv (λ m, m = cells)); [done| |done].
  intros o' i' st Ho' Hst. cbv beta. etrans; [|exact Hfix]. by apply step_fst_indep.
Qed.

Lemma simulate_still_witness : (simulate reverse_sched 7 block).1 = block.
Proof.
  apply (simulate_still elements_step 0 [] reverse_sched 7 block).
  - apply step_order_elements.
  - vm_compute. reflexivity.
  - apply schedule_reverse.
Defined.

Lemma step_snd (o : StepOrder) (i : Z) (st : Cells * list Event) :
  (step o i st).2
  = st.2 ++ [EvIteration i]
         ++ map EvDying (ord_dying o (dyingCells_of o st.1))
         ++ map EvBorn (ord_birthed o (birthedCells_of o st.1)).
Proof.
  unfold step. rewrite foldl_addCell_pair, foldl_removeCell_pair. cbn [fst snd].
  by rewrite <- !List.app_assoc.
Qed.

Lemma omap_iterationOf_dying (l : list Cell) : omap iterationOf (map EvDying l) = [].
Proof. by induction l. Qed.

Lemma omap_iterationOf_born (l : list Cell) : omap iterationOf (map EvBorn l) = [].
Proof. by induction l. Qed.

Lemma loop_iterations (sched : nat → StepOrder) (l : list nat) (st : Cells * list Event) :
  omap iterationOf (foldl (λ st i, step (sched i) (Z.of_nat i) st) st l).2
  = omap iterationOf st.2 ++ map Z.of_nat l.
Proof.
  revert st. induction l as [|i l IH]; intros st; simpl.
  - by rewrite List.app_nil_r.
  - rewrite IH, step_snd, !omap_app, omap_iterationOf_dying, omap_iterationOf_born.
    simpl. by rewrite <- List.app_assoc.
Qed.

(** X13.  The log holds one header for each iteration run, numbered from 0
    in order; with an iteration count of zero or less no iteration runs,
    the cells are unchanged and the log is empty. *)
Theorem simulate_iterations (sched : nat → StepOrder) (iterations : Z) (cells : Cells) :
  omap iterationOf (simulate sched iterations cells).2
  = map Z.of_nat (seq 0 (Z.to_nat iterations)) ∧
  (iterations <= 0 → simulate sched iterations cells = (cells, [])).
Proof.
  split.
  - unfold simulate. by rewrite loop_iterations.
  - intros Hle. unfold simulate. by replace (Z.to_nat iterations) with 0%nat by lia.
Qed.

Lemma simulate_iterations_witness :
  omap iterationOf (simulate reverse_sched (-3) blinker).2
  = map Z.of_nat (seq 0 (Z.to_nat (-3))) ∧
  simulate reverse_sched (-3) blinker = (blinker, []).
Proof.
  destruct (simulate_iterations reverse_sched (-3) blinker) as [Hlog Hneg].
  split; [exact Hlog|]. apply Hneg. lia.
Defined.

(** * Further properties of the reader and the writer *)




Lemma parseLoop_ok_nonempty (lines : list string) (cells : Cells) (headerFound : bool) :
  size cells ≠ 0%nat → forallb lineOK lines = true →
  parseLoop lines cells headerFound
  = inr (cells ∪ list_to_set (omap lineCell lines), headerFound).
Proof.
  revert cells. induction lines as [|t lines IH]; intros cells Hsz Hok.
  - simpl. do 2 f_equal. set_solver.
  - cbn [forallb] in Hok. apply andb_true_iff in Hok as [Ht Hok].
    rewrite omap_lineCell_cons. cbn [parseLoop].
    change (HasPrefix (TrimSpace t) "#") with (isComment t).
    destruct (isComment t) eqn:Hc.
    + rewrite lineCell_comment by done.
      replace (size cells =? 0)%nat with false by (symmetry; by apply Nat.eqb_neq).
      rewrite andb_false_r. by apply IH.
    + destruct (Fscanf (TrimSpace t) (mkCell 0 0)) as [[items err] cell] eqn:Hscan.
      destruct (lineOK_scan t items err cell Hc Hscan) as [HOK ->].
      rewrite Ht in HOK. symmetry in HOK. apply negb_true_iff in HOK. rewrite HOK.
      rewrite IH by (done || apply size_addCell).
      unfold addCell. do 2 f_equal. set_solver.
Qed.

Lemma parseLoop_ok_empty (lines : list string) (headerFound : bool) :
  forallb lineOK lines = true →
  parseLoop lines ∅ headerFound
  = inr (list_to_set (omap lineCell lines), headerFound || headerFirst lines).
Proof.
  revert headerFound. induction lines as [|t lines IH]; intros headerFound Hok.
  - simpl. by rewrite orb_false_r.
  - cbn [forallb] in Hok. apply andb_true_iff in Hok as [Ht Hok].
    rewrite omap_lineCell_cons. cbn [parseLoop headerFirst].
    change (HasPrefix (TrimSpace t) "#") with (isComment t).
    change (TrimSpace t =? FILE_HEADER)%string with (isHeader t).
    destruct (isComment t) eqn:Hc.
    + rewrite lineCell_comment, size_empty, IH by done. cbn [Nat.eqb andb].
      rewrite andb_true_r. do 2 f_equal. by destruct (isHeader t), headerFound.
    + destruct (Fscanf (TrimSpace t) (mkCell 0 0)) as [[items err] cell] eqn:Hscan.
      destruct (lineOK_scan t items err cell Hc Hscan) as [HOK ->].
      rewrite Ht in HOK. symmetry in HOK. apply negb_true_iff in HOK. rewrite HOK.
      rewrite parseLoop_ok_nonempty by (done || apply size_addCell).
      cbn [andb]. rewrite orb_false_r. unfold addCell. do 2 f_equal. set_solver.
Qed.

(** X14.  When all the lines that the scanner delivers (the lines of the
    file before its first line of 64 KiB or more) are comments or
    coordinate lines, [parseCells] returns the set of the cells of those
    coordinate lines if a header line comes before the first of them, and
    the header error otherwise (as for the empty file). *)
Theorem parseCells_wellformed (fs : FileSystem) (inputFile data : string) :
  fs !! inputFile = Some data →
  forallb lineOK (scanLines data) = true →
  parseCells fs inputFile
  = if headerFirst (scanLines data)
    then inr (list_to_set (omap lineCell (scanLines data)))
    else inl ErrHeader.
Proof.
  intros Hfs Hok. unfold parseCells. rewrite Hfs, parseLoop_ok_empty by done.
  cbn [orb]. by destruct (headerFirst (scanLines data)).
Qed.

Lemma parseCells_wellformed_witness :
  parseCells {[ "in.life" := unlines ["# glider"; FILE_HEADER; "0 1"; " 1 2 "; "0 1"] ]}
             "in.life"
  = inr {[ mkCell 0 1; mkCell 1 2 ]}.
Proof.
  etrans.
  - apply (parseCells_wellformed
             {[ "in.life" := unlines ["# glider"; FILE_HEADER; "0 1"; " 1 2 "; "0 1"] ]}
             "in.life" (unlines ["# glider"; FILE_HEADER; "0 1"; " 1 2 "; "0 1"]));
      reflexivity.
  - vm_compute. reflexivity.
Defined.

(** X15.  [parseCells] stops at the first line delivered by the scanner
    that is neither a comment nor a coordinate line, whatever follows it:
    it returns the malformed-line error with the error of the scan of that
    line and with the number of distinct cells read before it plus one. *)
Theorem parseCells_malformed (fs : FileSystem) (inputFile data : string)
    (pre post : list string) (bad : string) :
  fs !! inputFile = Some data →
  scanLines data = pre ++ bad :: post →
  forallb lineOK pre = true → lineOK bad = false →
  parseCells fs inputFile
  = inl (ErrLine (Z.of_nat (size (list_to_set (omap lineCell pre) : Cells)) + 1)
                 (scanError bad)).
Proof.
  intros Hfs Hlines Hpre Hbad. unfold parseCells.
  rewrite Hfs, Hlines, (parseLoop_first_bad pre post bad ∅ false) by done.
  by rewrite (left_id_L ∅ (∪)).
Qed.

Lemma parseCells_malformed_witness :
  parseCells {[ "in.life" := unlines [FILE_HEADER; "0 1"; "0 1"; "1_0 2"; "2 2"] ]} "in.life"
  = inl (ErrLine 2 (Some ErrExpectedSpace)).
Proof.
  apply (parseCells_malformed
           {[ "in.life" := unlines [FILE_HEADER; "0 1"; "0 1"; "1_0 2"; "2 2"] ]}
           "in.life" (unlines [FILE_HEADER; "0 1"; "0 1"; "1_0 2"; "2 2"])
           [FILE_HEADER; "0 1"; "0 1"] ["2 2"] "1_0 2"); reflexivity.
Defined.

Lemma ParseUint_loop_nonneg (s : string) (n u : Z) :
  0 <= n → ParseUint_loop s n = inr u → 0 <= u.
Proof.
  revert n. induction s as [|b s IH]; intros n Hn; simpl.
  - intros [= <-]. done.
  - unfold digit_of.
    destruct ((48 <=? code b) && (code b <=? 57)) eqn:Hb; [|done].
    apply andb_true_iff in Hb as [Hb1%Z.leb_le Hb2%Z.leb_le].
    destruct (2 ^ 64 <=? n * 10 + (code b - 48)); [done|].
    apply IH. lia.
Qed.

Lemma ParseInt_int64 (s : string) (v : Z) : ParseInt s = inr v → int64 v.
Proof.
  unfold ParseInt, ParseUint. destruct s as [|b s]; [done|].
  set (t := if (code b =? 43) || (code b =? 45) then s else String b s).
  destruct t as [|b' t'] eqn:Ht; [done|].
  destruct (ParseUint_loop (String b' t') 0) as [e|un] eqn:Hun; [done|].
  apply ParseUint_loop_nonneg in Hun; [|done].
  unfold int64, MinInt64, MaxInt64.
  destruct (code b =? 45); cbn [negb andb];
    [destruct (Z.ltb_spec (2 ^ 63) un)|destruct (Z.leb_spec (2 ^ 63) un)];
    intros [= <-]; lia.
Qed.

Lemma scanInt_int64 (s rest : string) (v : Z) : scanInt s = inr (v, rest) → int64 v.
Proof.
  unfold scanInt. destruct (SkipSpace s) as [e|[|b r]]; [done..|].
  destruct (if (code b =? 43) || (code b =? 45)
            then (String b "", r) else ("", String b r)) as [sign [|b' r']]; [done|].
  destruct (acceptDigits (String b' r')) as [[|d tok] rest']; [done|].
  destruct (ParseInt (sign +:+ String d tok)) as [e|i] eqn:Hi; [done|].
  intros [= <- _]. by apply ParseInt_int64 in Hi.
Qed.

Lemma Fscanf_int64 (line : string) (cell0 cell : Cell) (items : nat) (err : option ScanError) :
  Fscanf line cell0 = (items, err, cell) →
  (items <? 2)%nat || (if err is Some _ then true else false) = false →
  Cell_ok cell.
Proof.
  unfold Fscanf.
  destruct (scanInt line) as [e|[vx s]] eqn:Hx; [by intros [= <- <- _]|].
  destruct (advanceSpace s) as [e|s']; [by intros [= <- <- _]|].
  destruct (scanInt s') as [e|[vy r]] eqn:Hy; [by intros [= <- <- _]|].
  intros [= _ _ <-] _. split; simpl; by eapply scanInt_int64.
Qed.

Lemma parseLoop_Cell_ok (lines : list string) (cells cells' : Cells) (hf hf' : bool) :
  (∀ c, c ∈ cells → Cell_ok c) →
  parseLoop lines cells hf = inr (cells', hf') → ∀ c, c ∈ cells' → Cell_ok c.
Proof.
  revert cells hf. induction lines as [|t lines IH]; intros cells hf Hok; simpl.
  - by intros [= <- _].
  - destruct (HasPrefix (TrimSpace t) "#"); [by apply IH|].
    destruct (Fscanf (TrimSpace t) (mkCell 0 0)) as [[items err] cell] eqn:Hscan.
    destruct ((items <? 2)%nat || (if err is Some _ then true else false)) eqn:Hbad;
      [done|].
    apply IH. unfold addCell.
    intros c [->%elem_of_singleton|Hc]%elem_of_union; [|by apply Hok].
    by eapply Fscanf_int64.
Qed.

(** X16.  Every cell that [parseCells] returns has int64 coordinates:
    a number outside the range makes the line malformed, it is not
    wrapped. *)
Theorem parseCells_Cell_ok (fs : FileSystem) (inputFile : string) (cells : Cells) :
  parseCells fs inputFile = inr cells → ∀ c, c ∈ cells → Cell_ok c.
Proof.
  unfold parseCells. destruct (fs !! inputFile) as [data|]; [|done].
  destruct (parseLoop (scanLines data) ∅ false) as [e|[cells' hf]] eqn:Hloop; [done|].
  destruct hf; [|done]. intros [= <-].
  eapply parseLoop_Cell_ok; [|exact Hloop]. set_solver.
Qed.

Lemma parseCells_Cell_ok_witness :
  parseCells
    {[ "in.life" := unlines [FILE_HEADER; "9223372036854775807 -9223372036854775808"] ]}
    "in.life"
  = inr {[ mkCell 9223372036854775807 (-9223372036854775808) ]} ∧
  Cell_ok (mkCell 9223372036854775807 (-9223372036854775808)).
Proof.
  assert (parseCells
            {[ "in.life" := unlines [FILE_HEADER; "9223372036854775807 -9223372036854775808"] ]}
            "in.life"
          = inr {[ mkCell 9223372036854775807 (-9223372036854775808) ]}) as Hparse
    by (vm_compute; reflexivity).
  split; [exact Hparse|].
  apply (parseCells_Cell_ok _ _ _ Hparse). by apply elem_of_singleton.
Defined.

(** X17.  What follows the second number of a line is not looked at: the
    line written for an int64 cell, followed by any text that does not
    start with a digit, scans as that cell. *)
Theorem Fscanf_trailing (cell cell0 : Cell) (rest : string) :
  Cell_ok cell → tokenEnd rest = true →
  Fscanf (cell_line cell +:+ rest) cell0 = (2%nat, None, cell).
Proof.
  intros [Hx Hy] Hrest. unfold Fscanf, cell_line.
  rewrite !app_assoc. change (" " +:+ ?s) with (String " " s).
  rewrite scanInt_fmt_d by done.
  destruct (fmt_d_start (y cell)) as (b & r & Hs & Hb).
  assert (advanceSpace (String " " (fmt_d (y cell) +:+ rest)) = inr (fmt_d (y cell) +:+ rest))
    as ->.
  { rewrite Hs, app_String. unfold advanceSpace.
    change (code " " =? 10) with false. cbv iota.
    assert (skipBlanks (String " " (String b (r +:+ rest))) = String b (r +:+ rest)) as ->.
    { etrans; [|apply (skipBlanks_number b _ Hb)]. reflexivity. }
    destruct (String.eqb_spec (String b (r +:+ rest)) (String " " (String b (r +:+ rest))))
      as [Heq|_]; [|done].
    by apply String_neq in Heq. }
  rewrite scanInt_fmt_d by done. by destruct cell.
Qed.

Lemma Fscanf_trailing_witness :
  Fscanf (cell_line (mkCell (-3) 14) +:+ " 15 # and more") (mkCell 0 0)
  = (2%nat, None, mkCell (-3) 14).
Proof.
  apply (Fscanf_trailing (mkCell (-3) 14) (mkCell 0 0) " 15 # and more").
  - unfold Cell_ok, int64, MinInt64, MaxInt64. simpl. lia.
  - reflexivity.
Defined.

Lemma cell_line_inj (c c' : Cell) :
  Cell_ok c → Cell_ok c' → cell_line c = cell_line c' → c = c'.
Proof.
  intros Hc Hc' Heq.
  pose proof (Fscanf_cell_line c (mkCell 0 0) Hc) as H1.
  pose proof (Fscanf_cell_line c' (mkCell 0 0) Hc') as H2.
  rewrite Heq in H1. congruence.
Qed.

(** X18.  Into a writer that accepts every write [printCells] writes,
    without error, the header line, an empty line, and then one line for
    each cell of the map: the lines of the cells, each once, in some
    order. *)
Theorem printCells_lines (o : MapOrder) (cells : Cells) :
  range_order o → (∀ c, c ∈ cells → Cell_ok c) →
  (printCells o buffer cells).2 = None ∧
  ∃ body,
    scanLines (written (printCells o buffer cells).1) = FILE_HEADER :: "" :: body ∧
    body ≡ₚ map cell_line (elements cells) ∧
    NoDup body ∧
    length body = size cells.
Proof.
  intros Ho Hok. split.
  - unfold printCells, buffer, Fprintf. cbn [room written].
    by rewrite printLoop_buffer_text.
  - exists (map cell_line (o cells)).
    destruct (print_parse_lines o cells Ho Hok) as [Hlines _].
    split; [done|]. split; [by rewrite (Ho cells)|]. split.
    + apply NoDup_fmap_2_strong.
      * intros c c' Hc%(range_order_elem_of o) Hc'%(range_order_elem_of o); [|done..].
        apply cell_line_inj; by apply Hok.
      * rewrite (Ho cells). apply NoDup_elements.
    + rewrite length_map, (Ho cells). reflexivity.
Qed.

Lemma printCells_lines_witness :
  (printCells reverse_order buffer blinker).2 = None ∧
  ∃ body,
    scanLines (written (printCells reverse_order buffer blinker).1)
    = FILE_HEADER :: "" :: body ∧
    body ≡ₚ map cell_line (elements blinker) ∧
    NoDup body ∧
    length body = size blinker.
Proof.
  apply (printCells_lines reverse_order blinker).
  - apply range_order_reverse.
  - intros c Hc. unfold blinker in Hc.
    apply elem_of_union in Hc as [Hc|Hc%elem_of_singleton];
      [apply elem_of_union in Hc as [Hc%elem_of_singleton|Hc%elem_of_singleton]|];
      subst c; unfold Cell_ok, int64, MinInt64, MaxInt64; simpl; lia.
Defined.

Lemma printLoop_room (l : list Cell) (text : string) (n : nat) :
  printLoop (mkWriter text (Some n)) l
  = (mkWriter
       (text +:+ foldr String.append ""
          (take n (map (λ cell, fmt_d (x cell) +:+ " " +:+ fmt_d (y cell)
                                +:+ String newline "") l)))
       (Some (n - length l)%nat),
     if (n <? length l)%nat then Some ErrWrite else None).
Proof.
  revert text n. induction l as [|c l IH]; intros text n.
  - simpl. rewrite take_nil. simpl. by rewrite app_nil_r, Nat.sub_0_r.
  - destruct n as [|n]; cbn [printLoop Fprintf room written].
    + simpl. by rewrite app_nil_r.
    + rewrite IH. cbn [map take foldr length Nat.sub]. by rewrite app_assoc.
Qed.

(** X19.  With a writer that accepts [n] more writes [printCells] makes
    its writes in order until one fails: the text written is that of the
    first [n] writes, and the error is returned exactly when [n] is at
    most the number of cells (the header takes one write). *)
Theorem printCells_room (o : MapOrder) (cells : Cells) (text : string) (n : nat) :
  range_order o →
  written (printCells o (mkWriter text (Some n)) cells).1
  = text +:+ foldr String.append "" (take n (printWrites o cells)) ∧
  ((printCells o (mkWriter text (Some n)) cells).2 = Some ErrWrite ↔ (n ≤ size cells)%nat) ∧
  ((printCells o (mkWriter text (Some n)) cells).2 = None ↔ (size cells < n)%nat).
Proof.
  intros Ho. unfold printCells, printWrites.
  assert (length (o cells) = size cells) as Hlen by (by rewrite (Ho cells)).
  destruct n as [|n]; cbn [Fprintf room written].
  - cbn [fst snd written take foldr]. rewrite app_nil_r.
    split; [done|]. split; split; (done || lia).
  - rewrite printLoop_room, Hlen. cbn [fst snd written take foldr].
    rewrite app_assoc. split; [done|].
    destruct (Nat.ltb_spec n (size cells)).
    + split; split; (done || lia).
    + split; split; (done || lia).
Qed.

Lemma printCells_room_witness :
  written (printCells reverse_order (mkWriter "" (Some 2%nat)) blinker).1
  = "" +:+ foldr String.append "" (take 2 (printWrites reverse_order blinker)) ∧
  ((printCells reverse_order (mkWriter "" (Some 2%nat)) blinker).2 = Some ErrWrite
   ↔ (2 ≤ size blinker)%nat) ∧
  ((printCells reverse_order (mkWriter "" (Some 2%nat)) blinker).2 = None
   ↔ (size blinker < 2)%nat).
Proof. apply (printCells_room reverse_order blinker "" 2). apply range_order_reverse. Defined.

(** X20.  When the file named by the flag variable parses, a run into a
    writer that accepts every write returns no error; what it prints is the
    text [printCells] writes for the cells after the iterations, the same
    for every order of the map loops of the simulation; its log is that of
    the loop; and [main] is such a run with the iteration count of the
    flag. *)
Theorem runGameOfLife_output (flags : Flags) (fs : FileSystem)
    (sched sched' : nat → StepOrder) (o : MapOrder) (inputFile : string)
    (iterations : Z) (cells : Cells) :
  schedule sched → schedule sched' →
  parseCells fs (inputArg flags) = inr cells →
  failure (runGameOfLife flags fs sched o buffer inputFile iterations) = None ∧
  stdout (runGameOfLife flags fs sched o buffer inputFile iterations)
  = (printCells o buffer (simulate sched' iterations cells).1).1 ∧
  stderr (runGameOfLife flags fs sched o buffer inputFile iterations)
  = (simulate sched iterations cells).2 ∧
  (iterations = iterationsArg flags →
   main flags fs sched o buffer
   = runGameOfLife flags fs sched o buffer inputFile iterations).
Proof.
  intros Hs Hs' Hparse.
  assert (iterations = iterationsArg flags →
          main flags fs sched o buffer
          = runGameOfLife flags fs sched o buffer inputFile iterations) as Hmain.
  { intros ->. reflexivity. }
  revert Hmain. generalize (main flags fs sched o buffer). intros m Hmain.
  unfold runGameOfLife in *. rewrite Hparse in *.
  rewrite (simulate_fst_indep sched' sched) by done.
  destruct (simulate sched iterations cells) as [next log]. cbn [fst snd].
  assert ((printCells o buffer next).2 = None) as Hnone.
  { unfold printCells, buffer, Fprintf. cbn [room written].
    by rewrite printLoop_buffer_text. }
  destruct (printCells o buffer next) as [w [e|]]; [done|].
  repeat split. done.
Qed.

Lemma runGameOfLife_output_witness :
  let fs : FileSystem := {[ "a.life" := unlines [FILE_HEADER; "0 0"; "1 0"; "2 0"] ]} in
  let flags := mkFlags "a.life" 1 in
  failure (runGameOfLife flags fs reverse_sched elements_order buffer "a.life" 1) = None ∧
  stdout (runGameOfLife flags fs reverse_sched elements_order buffer "a.life" 1)
  = (printCells elements_order buffer (simulate elements_sched 1 blinker).1).1 ∧
  stderr (runGameOfLife flags fs reverse_sched elements_order buffer "a.life" 1)
  = (simulate reverse_sched 1 blinker).2 ∧
  (1 = iterationsArg flags →
   main flags fs reverse_sched elements_order buffer
   = runGameOfLife flags fs reverse_sched elements_order buffer "a.life" 1).
Proof.
  apply (runGameOfLife_output (mkFlags "a.life" 1)
           {[ "a.life" := unlines [FILE_HEADER; "0 0"; "1 0"; "2 0"] ]}
           reverse_sched elements_sched elements_order "a.life" 1 blinker).
  - apply schedule_reverse.
  - apply schedule_elements.
  - vm_compute. reflexivity.
Defined.
